(** * getfile.cpp: an HTTP/1.1 GET client with optional proxy

    A shallow embedding of [src/getfile.cpp] (the non-Windows build, i.e. the
    [#else] branches of the [_WIN32] conditionals) and the properties of its
    URL parser, proxy resolver, request builder and transceiver.

    Conventions of the embedding:
    - a C string is modelled by its contents, the characters before the
      terminating NUL, as a [string];
    - a pointer into a C string ([url + 7], [site]) is the suffix starting at
      that offset ([str_drop]);
    - [int] and [long] values are [Z]; the only arithmetic the program does
      on them is comparison, and [htons] is written with its wrap-around;
    - the operating system (standard input, the environment, the resolver,
      the socket calls and [errno]) is a record [World] of the answers the
      program receives; a run is the list of the effects it performs and the
      way it ends. *)

From Stdlib Require Import String Ascii List ZArith Lia Bool DecimalString.
Import ListNotations.

Local Open Scope string_scope.
Local Open Scope Z_scope.

(** ** Characters and C strings *)

Definition NUL : ascii := "000"%char.
Definition LF : ascii := "010"%char.
Definition CR : ascii := "013"%char.

(** ["\n"] and ["\r\n"] of the C string literals. *)
Definition nl : string := String LF EmptyString.
Definition crlf : string := String CR (String LF EmptyString).

(** [strlen]. *)
Definition strlen (s : string) : nat := String.length s.

(** [p + n] for a pointer [p] into a C string of at least [n] characters. *)
Fixpoint str_drop (n : nat) (s : string) : string :=
  match n, s with
  | O, _ => s
  | S n', String _ s' => str_drop n' s'
  | S _, EmptyString => EmptyString
  end.

(** The first [n] characters: [std::string::assign(p, n)], and what is left
    of a C string once a NUL is stored at offset [n]. *)
Fixpoint str_take (n : nat) (s : string) : string :=
  match n, s with
  | O, _ => EmptyString
  | S n', String c s' => String c (str_take n' s')
  | S _, EmptyString => EmptyString
  end.

(** The C string held by a character array: the characters before the first
    NUL. *)
Fixpoint until_nul (s : string) : string :=
  match s with
  | EmptyString => EmptyString
  | String c s' => if Ascii.eqb c NUL then EmptyString else String c (until_nul s')
  end.

Definition uchar (c : ascii) : Z := Z.of_nat (nat_of_ascii c).

(** [strncmp(a, b, n)]: the difference of the first two differing characters
    (as [unsigned char]) among the first [n], the end of a string counting
    as NUL; 0 when there is none. *)
Fixpoint strncmp (a b : string) (n : nat) : Z :=
  match n with
  | O => 0
  | S n' =>
      match a, b with
      | EmptyString, EmptyString => 0
      | EmptyString, String y _ => 0 - uchar y
      | String x _, EmptyString => uchar x
      | String x a', String y b' =>
          if Ascii.eqb x y then strncmp a' b' n' else uchar x - uchar y
      end
  end.

(** [strchr(s, c)] for [c <> NUL]: the offset of the first occurrence of
    [c], [None] for a null pointer. *)
Fixpoint strchr (s : string) (c : ascii) : option nat :=
  match s with
  | EmptyString => None
  | String x s' =>
      if Ascii.eqb x c then Some O
      else match strchr s' c with
           | Some i => Some (S i)
           | None => None
           end
  end.

(** [isspace] in the C locale. *)
Definition isspace (c : ascii) : bool :=
  let n := nat_of_ascii c in
  (Nat.eqb n 32 || (Nat.leb 9 n && Nat.leb n 13))%bool.

Definition isdigit (c : ascii) : bool :=
  let n := nat_of_ascii c in (Nat.leb 48 n && Nat.leb n 57)%bool.

Definition digit_val (c : ascii) : Z := uchar c - 48.

Fixpoint skip_space (s : string) : string :=
  match s with
  | String c s' => if isspace c then skip_space s' else s
  | EmptyString => s
  end.

(** The digit loop of [atoi]: [acc = acc * 10 + (c - '0')] while [c] is a
    digit. *)
Fixpoint digits_acc (s : string) (acc : Z) : Z :=
  match s with
  | String c s' => if isdigit c then digits_acc s' (10 * acc + digit_val c) else acc
  | EmptyString => acc
  end.

Definition INT_MIN : Z := - 2 ^ 31.
Definition INT_MAX : Z := 2 ^ 31 - 1.

(** Conversion to [int], with its wrap-around. *)
Definition to_int (z : Z) : Z := (z + 2 ^ 31) mod 2 ^ 32 - 2 ^ 31.

(** The number [atoi] reads: optional white space, an optional sign, then
    decimal digits (0 when there is none). *)
Definition atoi_value (s : string) : Z :=
  match skip_space s with
  | String "-" r => - digits_acc r 0
  | String "+" r => digits_acc r 0
  | r => digits_acc r 0
  end.

(** [atoi]. ISO C leaves the result undefined when the number is not
    representable as an [int]; what the C library at hand returns then
    (glibc: [(int) strtol(s, NULL, 10)]) is the parameter [overflow], whose
    result is an [int] all the same. *)
Definition atoi (overflow : Z -> Z) (s : string) : Z :=
  let v := atoi_value s in
  if (INT_MIN <=? v) && (v <=? INT_MAX) then v else to_int (overflow v).

(** [printf("%d", z)]. *)
Definition dec (z : Z) : string := NilZero.string_of_int (Z.to_int z).

(** [snprintf(buf, size, ...)] where the format expands to [formatted]: at
    most [size - 1] characters are stored, then the NUL. *)
Definition snprintf (size : nat) (formatted : string) : string :=
  str_take (size - 1) formatted.

(** ** Step 4: the URL parser (lines 77-89) *)

Definition parse_url (url : string) : string * string :=
  let host := if strncmp "http://" url 7 =? 0 then str_drop 7 url else url in
  match strchr host "/" with
  | Some i => (str_take i host, str_drop (S i) host)
  | None => (host, str_drop (strlen host) host)
  end.

(** ** Step 5: the proxy resolver (lines 92-112) *)

Record proxy_vars : Type := {
  useProxy : bool;
  proxyHost : string;
  proxyPort : Z
}.

Definition proxy_resolver (overflow : Z -> Z) (proxy_env : option string)
  : proxy_vars :=
  match proxy_env with
  | Some env =>
      if strncmp env "http://" 7 =? 0 then
        let p := str_drop 7 env in
        match strchr p ":" with
        | Some colon =>
            let host := str_take colon p in
            let port := atoi overflow (str_drop (S colon) p) in
            {| useProxy := port >? 0; proxyHost := host; proxyPort := port |}
        | None => {| useProxy := false; proxyHost := ""; proxyPort := 0 |}
        end
      else {| useProxy := false; proxyHost := ""; proxyPort := 0 |}
  | None => {| useProxy := false; proxyHost := ""; proxyPort := 0 |}
  end.

(** ** Step 6: the connect target (lines 115-123) *)

Definition connect_target (px : proxy_vars) (host : string) : string * Z :=
  if useProxy px then (proxyHost px, proxyPort px) else (host, 80).

(** ** Step 10: the request (lines 161-181) *)

Definition bufsz : Z := 4096.

Definition build_request (use_proxy : bool) (host site : string) : string :=
  if use_proxy then
    snprintf (Z.to_nat bufsz)
      ("GET http://" ++ host ++ "/" ++ site ++ " HTTP/1.1" ++ crlf ++
       "Host: " ++ host ++ crlf ++
       "Connection: close" ++ crlf ++
       crlf)
  else
    snprintf (Z.to_nat bufsz)
      ("GET /" ++ site ++ " HTTP/1.1" ++ crlf ++
       "Host: " ++ host ++ ":80" ++ crlf ++
       "Connection: close" ++ crlf ++
       crlf).

(** ** The operating system *)

(** An IPv4 address ([in_addr]) as a 32-bit number, first octet most
    significant. *)
Definition in_addr : Type := Z.

Definition INADDR_NONE : in_addr := 4294967295.

(** [inet_ntoa]. *)
Definition inet_ntoa (a : in_addr) : string :=
  dec (a / 16777216 mod 256) ++ "." ++ dec (a / 65536 mod 256) ++ "." ++
  dec (a / 256 mod 256) ++ "." ++ dec (a mod 256).

(** [htons]: the port as the 16-bit number put in [sin_port]. *)
Definition htons (port : Z) : Z := port mod 65536.

(** What one call of [recv] finds: bytes to deliver (none when the peer has
    closed the stream), or a failure, for which [recv] returns the negative
    number [- e]. *)
Inductive recv_event : Type :=
| RecvData (bytes : string)
| RecvError (e : positive).

Record World : Type := {
  (** the bytes available on standard input *)
  w_stdin : string;
  (** [getenv("http_proxy")] *)
  w_http_proxy : option string;
  (** [atoi] on numbers outside of [int] *)
  w_atoi_overflow : Z -> Z;
  (** [inet_addr]: [INADDR_NONE] when the name is no dotted quad *)
  w_inet_addr : string -> in_addr;
  (** [gethostbyname]: the first address ([h_addr], 4 bytes), or a null
      pointer *)
  w_gethostbyname : string -> option in_addr;
  (** the value of [socket(AF_INET, SOCK_STREAM, 0)] *)
  w_socket : Z;
  (** the value of [connect] *)
  w_connect : Z;
  (** the value of [send] *)
  w_send : Z;
  (** what the successive calls of [recv] find; after the last one, [recv]
      does not return *)
  w_recv : list recv_event;
  (** the contents of the uninitialised array [recv_buf] *)
  w_recv_buf : nat -> ascii;
  (** [errno], as [WSAGetLastError] reads it after the call that failed *)
  w_errno : Z
}.

(** ** Runs *)

Inductive event : Type :=
| EvStdout (s : string)
| EvInetAddr (name : string)
| EvGetHostByName (name : string)
| EvSocket
| EvConnect (fd : Z) (addr : in_addr) (sin_port : Z)
| EvSend (fd : Z) (buf : string) (len : Z)
| EvRecv (fd : Z) (len : Z)
| EvClose (fd : Z).

Inductive outcome (A : Type) : Type :=
| Returned (a : A)
| Exited (status : Z)
| Blocked
| Fault.

Arguments Returned {A} a.
Arguments Exited {A} status.
Arguments Blocked {A}.
Arguments Fault {A}.

(** A computation: the effects performed, in order, and how it ended:
    with a value, in [exit(status)], inside a call that never returns, or
    in an access outside of an array. *)
Definition M (A : Type) : Type := (list event * outcome A)%type.

Definition trace {A : Type} (m : M A) : list event := let (t, _) := m in t.
Definition result {A : Type} (m : M A) : outcome A := let (_, r) := m in r.

Definition ret {A : Type} (a : A) : M A := ([], Returned a).

(** [m] and then, if [m] ends with a value, [k] of it. *)
Definition bind {A B : Type} (m : M A) (k : A -> M B) : M B :=
  match m with
  | (t, Returned a) => let (t', r) := k a in ((t ++ t')%list, r)
  | (t, Exited c) => (t, Exited c)
  | (t, Blocked) => (t, Blocked)
  | (t, Fault) => (t, Fault)
  end.

Declare Scope run_scope.
Delimit Scope run_scope with run.
Notation "x <- m ;; k" := (bind m (fun x => k))
  (at level 61, m at next level, right associativity) : run_scope.
Notation "m ;; k" := (bind m (fun _ => k))
  (at level 61, right associativity) : run_scope.
Local Open Scope run_scope.

Definition emit (e : event) : M unit := ([e], Returned tt).

Definition fault {A : Type} : M A := ([], Fault).

(** [printf] of an expanded format. *)
Definition printf (s : string) : M unit := emit (EvStdout s).

(** [perr_exit] (lines 35-39). *)
Definition perr_exit {A : Type} (msg : string) (ret_code : Z) : M A :=
  ([EvStdout ("ERROR: " ++ msg ++ " (code " ++ dec ret_code ++ ")" ++ nl)],
   Exited ret_code).

Definition WSAGetLastError (w : World) : Z := w_errno w.

(** [scanf("%Ns", url)]: white space is skipped, then up to [N] characters
    that are not white space are stored, and a NUL; no conversion (the
    value [EOF]) when the input ends first. *)
Fixpoint take_token (width : nat) (s : string) : string :=
  match width, s with
  | S n, String c s' => if isspace c then EmptyString else String c (take_token n s')
  | _, _ => EmptyString
  end.

Definition scanf_s (width : nat) (input : string) : option string :=
  match skip_space input with
  | EmptyString => None
  | rest => Some (until_nul (take_token width rest))
  end.

(** *** Character arrays, with checked accesses *)

Record buffer : Type := {
  buf_size : nat;
  buf_at : nat -> ascii
}.

(** [b[i] = c]; [None] outside of the array. *)
Definition buf_store (b : buffer) (i : Z) (c : ascii) : option buffer :=
  if (0 <=? i) && (i <? Z.of_nat (buf_size b)) then
    Some {| buf_size := buf_size b;
            buf_at := fun j => if Nat.eqb j (Z.to_nat i) then c else buf_at b j |}
  else None.

(** The bytes [data] copied to [b[off], b[off+1], ...]. *)
Fixpoint buf_copy (b : buffer) (off : nat) (data : string) : option buffer :=
  match data with
  | EmptyString => Some b
  | String c rest =>
      match buf_store b (Z.of_nat off) c with
      | Some b' => buf_copy b' (S off) rest
      | None => None
      end
  end.

(** The C string at [b[i]], read as [printf("%s")] does; [None] when the
    array ends before a NUL. *)
Fixpoint buf_cstr_from (b : buffer) (i fuel : nat) : option string :=
  match fuel with
  | O => None
  | S fuel' =>
      if Nat.ltb i (buf_size b) then
        if Ascii.eqb (buf_at b i) NUL then Some EmptyString
        else match buf_cstr_from b (S i) fuel' with
             | Some s => Some (String (buf_at b i) s)
             | None => None
             end
      else None
  end.

Definition buf_cstr (b : buffer) : option string :=
  buf_cstr_from b 0 (S (buf_size b)).

Definition lift_mem {A : Type} (o : option A) : M A :=
  match o with
  | Some a => ret a
  | None => fault
  end.

(** *** Step 11: the receive loop (lines 192-195)

    The value is the [rc] that ended the loop. *)
Fixpoint recv_loop (s : Z) (script : list recv_event) (recv_buf : buffer)
  : M Z :=
  match script with
  | [] => ([EvRecv s (bufsz - 2)], Blocked)
  | ev :: script' =>
      emit (EvRecv s (bufsz - 2)) ;;
      match ev with
      | RecvError e => ret (Z.neg e)
      | RecvData bytes =>
          let rc := Z.of_nat (strlen bytes) in
          if rc >? 0 then
            b1 <- lift_mem (buf_copy recv_buf 0 bytes) ;;
            b2 <- lift_mem (buf_store b1 rc NUL) ;;
            text <- lift_mem (buf_cstr b2) ;;
            printf text ;;
            recv_loop s script' b2
          else ret rc
      end
  end.

(** The UTF-8 bytes of the arrow in two of the messages. *)
Definition arrow : string := String "226" (String "134" (String "146" "")).

(** ** [main] (lines 41-209) *)
Definition main (w : World) : M Z :=
  printf ("[Step 1] (Unix) No WSAStartup needed." ++ nl) ;;
  printf ("[Step 2] Preparing address structure..." ++ nl) ;;
  printf ("[Step 3] Asking for URL..." ++ nl) ;;
  printf "URL: " ;;
  url <- match scanf_s 1023 (w_stdin w) with
         | Some url => ret url
         | None => perr_exit "Failed to read URL" (-1)
         end ;;
  printf ("[Step 4] Parsing URL..." ++ nl) ;;
  let host := fst (parse_url url) in
  let site := snd (parse_url url) in
  printf ("        Parsed Host: " ++ host ++ nl) ;;
  printf ("        Parsed Site: " ++ site ++ nl) ;;
  let px := proxy_resolver (w_atoi_overflow w) (w_http_proxy w) in
  (if useProxy px then
     printf ("[DEBUG] http_proxy detected " ++ arrow ++ " " ++
             proxyHost px ++ ":" ++ dec (proxyPort px) ++ nl)
   else ret tt) ;;
  (if negb (useProxy px) then
     printf ("[DEBUG] No valid http_proxy found " ++ arrow ++
             " connecting directly" ++ nl)
   else ret tt) ;;
  let connectTo := fst (connect_target px host) in
  let connectPort := snd (connect_target px host) in
  printf ("[Step 5] Resolving '" ++ connectTo ++ "' ..." ++ nl) ;;
  emit (EvInetAddr connectTo) ;;
  addr <- (if w_inet_addr w connectTo =? INADDR_NONE then
             printf ("        inet_addr failed; calling gethostbyname for '" ++
                     connectTo ++ "'..." ++ nl) ;;
             emit (EvGetHostByName connectTo) ;;
             match w_gethostbyname w connectTo with
             | Some a => ret a
             | None => perr_exit "Cannot resolve connectTo" (WSAGetLastError w)
             end
           else ret (w_inet_addr w connectTo)) ;;
  printf ("        Resolved '" ++ connectTo ++ "' " ++ arrow ++ " " ++
          inet_ntoa addr ++ ":" ++ dec connectPort ++ nl) ;;
  printf ("[Step 6] Creating socket..." ++ nl) ;;
  emit EvSocket ;;
  let s := w_socket w in
  (if s <? 0 then perr_exit "Cannot create socket" (WSAGetLastError w)
   else ret tt) ;;
  printf ("        Socket created (fd=" ++ dec s ++ ")" ++ nl) ;;
  printf ("[Step 7] Connecting to " ++ connectTo ++ ":" ++ dec connectPort ++
          " ..." ++ nl) ;;
  emit (EvConnect s addr (htons connectPort)) ;;
  (if negb (w_connect w =? 0) then
     perr_exit "Cannot connect" (WSAGetLastError w)
   else ret tt) ;;
  printf ("        Connected to " ++ connectTo ++ ":" ++ dec connectPort ++ nl) ;;
  printf ("[Step 8] Preparing HTTP GET request..." ++ nl) ;;
  let send_buf := build_request (useProxy px) host site in
  printf ("        >>> Request >>>" ++ nl ++ send_buf ++ nl) ;;
  emit (EvSend s send_buf (Z.of_nat (strlen send_buf))) ;;
  (if w_send w <? Z.of_nat (strlen send_buf) then
     perr_exit "Cannot send data" (WSAGetLastError w)
   else ret tt) ;;
  printf ("        Request sent successfully." ++ nl) ;;
  printf ("[Step 9] Receiving HTTP response..." ++ nl) ;;
  printf ("---- Start of response ----" ++ nl) ;;
  rc <- recv_loop s (w_recv w)
          {| buf_size := Z.to_nat bufsz; buf_at := w_recv_buf w |} ;;
  (if rc <? 0 then perr_exit "Error receiving data" (WSAGetLastError w)
   else ret tt) ;;
  printf (nl ++ "---- End of response ----" ++ nl) ;;
  printf ("[Step 10] Closing socket and cleaning up." ++ nl) ;;
  emit (EvClose s) ;;
  printf ("[Step 10] Done. Exiting." ++ nl) ;;
  ret 0.

(** *** Reading a run *)

(** What was written to standard output. *)
Fixpoint stdout_of (t : list event) : string :=
  match t with
  | [] => EmptyString
  | EvStdout s :: t' => s ++ stdout_of t'
  | _ :: t' => stdout_of t'
  end.

(** The buffers and byte counts handed to [send], one pair per call. *)
Fixpoint sends_of (t : list event) : list (string * Z) :=
  match t with
  | [] => []
  | EvSend _ buf len :: t' => (buf, len) :: sends_of t'
  | _ :: t' => sends_of t'
  end.

(** The byte counts asked of [recv], one per call. *)
Fixpoint recvs_of (t : list event) : list Z :=
  match t with
  | [] => []
  | EvRecv _ len :: t' => len :: recvs_of t'
  | _ :: t' => recvs_of t'
  end.

(** The names looked up, by [inet_addr] or [gethostbyname]. *)
Fixpoint lookups_of (t : list event) : list string :=
  match t with
  | [] => []
  | EvInetAddr n :: t' => n :: lookups_of t'
  | EvGetHostByName n :: t' => n :: lookups_of t'
  | _ :: t' => lookups_of t'
  end.

(** The addresses and ports handed to [connect], one pair per call. *)
Fixpoint connects_of (t : list event) : list (in_addr * Z) :=
  match t with
  | [] => []
  | EvConnect _ addr port :: t' => (addr, port) :: connects_of t'
  | _ :: t' => connects_of t'
  end.

(** The last effect of a run. *)
Definition last_event (t : list event) : option event :=
  match t with
  | [] => None
  | e :: t' => Some (List.last t' e)
  end.

(** The run [m] ends in [perr_exit(msg, code)]: the last thing it does is
    to print the message with the code, and it exits with that code. *)
Definition dies_with {A : Type} (m : M A) (msg : string) (code : Z) : Prop :=
  result m = Exited code
  /\ last_event (trace m)
     = Some (EvStdout ("ERROR: " ++ msg ++ " (code " ++ dec code ++ ")" ++ nl)).

(** An effect of the receive loop on the socket [s]: a [recv] of
    [bufsz - 2] bytes, or a [printf]. *)
Definition is_recv_or_stdout (s : Z) (e : event) : Prop :=
  match e with
  | EvRecv s' len => s' = s /\ len = bufsz - 2
  | EvStdout _ => True
  | _ => False
  end.

(** The effects of the receive loop on chunks printed as they are. *)
Definition chunk_reads (s : Z) (chunks : list string) : list event :=
  flat_map (fun c => [EvRecv s (bufsz - 2); EvStdout c]) chunks.

(** ** Notions the properties are stated with *)

(** The character [c] occurs in [s]. *)
Fixpoint occurs (c : ascii) (s : string) : Prop :=
  match s with
  | EmptyString => False
  | String x s' => x = c \/ occurs c s'
  end.

(** [rest] is what is left of [url] once a leading ["http://"], if there is
    one, is stripped. *)
Definition remainder_of (url rest : string) : Prop :=
  url = "http://" ++ rest \/ (rest = url /\ String.prefix "http://" url = false).

Fixpoint all_digits (s : string) : bool :=
  match s with
  | EmptyString => true
  | String c s' => isdigit c && all_digits s'
  end.

(** The number a sequence of decimal digits denotes. *)
Fixpoint decimal_value (ds : string) : Z :=
  match ds with
  | EmptyString => 0
  | String c ds' => digit_val c * 10 ^ Z.of_nat (String.length ds') + decimal_value ds'
  end.

(** [s] does not begin with a digit. *)
Definition no_leading_digit (s : string) : bool :=
  match s with
  | EmptyString => true
  | String c _ => negb (isdigit c)
  end.

Fixpoint all_space (s : string) : bool :=
  match s with
  | EmptyString => true
  | String c s' => isspace c && all_space s'
  end.

(** [s] does not begin with white space. *)
Definition no_leading_space (s : string) : bool :=
  match s with
  | EmptyString => true
  | String c _ => negb (isspace c)
  end.

(** [s] does not begin with a sign. *)
Definition no_leading_sign (s : string) : bool :=
  match s with
  | EmptyString => true
  | String c _ => negb (Ascii.eqb c "-") && negb (Ascii.eqb c "+")
  end.

(** [t] begins with the decimal digits of [v], all of them ([v] is 0 when
    [t] begins with no digit); what follows the digits does not count. *)
Definition leading_number (t : string) (v : Z) : Prop :=
  exists ds rest,
    t = ds ++ rest /\ all_digits ds = true /\ no_leading_digit rest = true
    /\ v = decimal_value ds.

(** The integer that the text [r] denotes, read as C reads an integer:
    white space if any, then a sign if any, then the leading decimal
    digits. *)
Definition port_number (r : string) (n : Z) : Prop :=
  exists ws body,
    r = ws ++ body /\ all_space ws = true /\ no_leading_space body = true
    /\ ((exists t v, body = "-" ++ t /\ leading_number t v /\ n = - v)
        \/ (exists t, body = "+" ++ t /\ leading_number t n)
        \/ (no_leading_sign body = true /\ leading_number body n)).

(** The request line of a request: what is before the first CR. *)
Definition request_line (req : string) : string :=
  match strchr req CR with
  | Some i => str_take i req
  | None => req
  end.

(** The world [w] with another value of [http_proxy]. *)
Definition with_http_proxy (v : option string) (w : World) : World :=
  {| w_stdin := w_stdin w;
     w_http_proxy := v;
     w_atoi_overflow := w_atoi_overflow w;
     w_inet_addr := w_inet_addr w;
     w_gethostbyname := w_gethostbyname w;
     w_socket := w_socket w;
     w_connect := w_connect w;
     w_send := w_send w;
     w_recv := w_recv w;
     w_recv_buf := w_recv_buf w;
     w_errno := w_errno w |}.

(** The address [main] finds for [name]: the dotted quad, or else the
    first address of [gethostbyname]. *)
Definition address_of (w : World) (name : string) : option in_addr :=
  if w_inet_addr w name =? INADDR_NONE then w_gethostbyname w name
  else Some (w_inet_addr w name).

(** The connection to [name] is established. *)
Definition connected (w : World) (name : string) : bool :=
  match address_of w name with
  | Some _ => negb (w_socket w <? 0) && (w_connect w =? 0)
  | None => false
  end.

(** [recv] returns no more bytes than it was asked for. *)
Definition recv_contract (len : Z) (ev : recv_event) : Prop :=
  match ev with
  | RecvData bytes => Z.of_nat (String.length bytes) <= len
  | RecvError _ => True
  end.

Definition is_fault {A : Type} (r : outcome A) : bool :=
  match r with
  | Fault => true
  | _ => false
  end.

(** What glibc's [atoi] does with a number outside of [int]: it is
    [(int) strtol(s, NULL, 10)], and [strtol] saturates at [LONG_MIN] and
    [LONG_MAX] (64 bits). *)
Definition glibc_overflow (v : Z) : Z :=
  Z.max (- 2 ^ 63) (Z.min v (2 ^ 63 - 1)).

(** ** Example worlds *)

Definition example_response : string :=
  "HTTP/1.1 200 OK" ++ crlf ++ crlf ++ "hello".

(** A server that answers with a short page and closes the stream; no name
    is a dotted quad, and every name has the address 192.0.2.1. *)
Definition example_direct_world : World := {|
  w_stdin := "http://example.com/index.html" ++ nl;
  w_http_proxy := None;
  w_atoi_overflow := glibc_overflow;
  w_inet_addr := fun _ => INADDR_NONE;
  w_gethostbyname := fun _ => Some 3221225985;
  w_socket := 3;
  w_connect := 0;
  w_send := 69;
  w_recv := [RecvData example_response; RecvData ""];
  w_recv_buf := fun _ => "x"%char;
  w_errno := 0
|}.

(** The same, behind the proxy [proxy.example:8080]. *)
Definition example_proxy_world : World :=
  {| w_stdin := w_stdin example_direct_world;
     w_http_proxy := Some "http://proxy.example:8080";
     w_atoi_overflow := glibc_overflow;
     w_inet_addr := w_inet_addr example_direct_world;
     w_gethostbyname := w_gethostbyname example_direct_world;
     w_socket := 3;
     w_connect := 0;
     w_send := 84;
     w_recv := w_recv example_direct_world;
     w_recv_buf := w_recv_buf example_direct_world;
     w_errno := 0 |}.

(** The first world, where [send] accepts 10 bytes only and reports no
    error. *)
Definition partial_send_world : World :=
  {| w_stdin := w_stdin example_direct_world;
     w_http_proxy := None;
     w_atoi_overflow := glibc_overflow;
     w_inet_addr := w_inet_addr example_direct_world;
     w_gethostbyname := w_gethostbyname example_direct_world;
     w_socket := 3;
     w_connect := 0;
     w_send := 10;
     w_recv := w_recv example_direct_world;
     w_recv_buf := w_recv_buf example_direct_world;
     w_errno := 0 |}.

(** ** More notions: the socket's life, and the order of the calls *)

(** The descriptors handed to [closesocket], one per call. *)
Fixpoint closes_of (t : list event) : list Z :=
  match t with
  | [] => []
  | EvClose fd :: t' => fd :: closes_of t'
  | _ :: t' => closes_of t'
  end.

Definition is_stdout (e : event) : Prop :=
  match e with
  | EvStdout _ => True
  | _ => False
  end.

(** How far a run has come with its network calls. *)
Inductive phase : Type :=
| PStart
| PInetAddr
| PHostByName
| PSocket
| PConnected
| PSent
| PClosed.

(** The calls a run may make in a phase, [s] being the descriptor that
    [socket] returned: [inet_addr] first, then [gethostbyname] once or not
    at all, then [socket], and, on the descriptor [s] when it is not
    negative, [connect], [send], any number of [recv] and [closesocket].
    Printing is allowed at any time. *)
Definition protocol_step (s : Z) (p : phase) (e : event) : option phase :=
  match e, p with
  | EvStdout _, _ => Some p
  | EvInetAddr _, PStart => Some PInetAddr
  | EvGetHostByName _, PInetAddr => Some PHostByName
  | EvSocket, PInetAddr => Some PSocket
  | EvSocket, PHostByName => Some PSocket
  | EvConnect fd _ _, PSocket =>
      if (fd =? s) && negb (s <? 0) then Some PConnected else None
  | EvSend fd _ _, PConnected => if fd =? s then Some PSent else None
  | EvRecv fd _, PSent => if fd =? s then Some PSent else None
  | EvClose fd, PSent => if fd =? s then Some PClosed else None
  | _, _ => None
  end.

Fixpoint protocol_run (s : Z) (p : phase) (t : list event) : option phase :=
  match t with
  | [] => Some p
  | e :: t' =>
      match protocol_step s p e with
      | Some p' => protocol_run s p' t'
      | None => None
      end
  end.

(** The world [w] with other contents of the uninitialised [recv_buf]. *)
Definition with_recv_buf (g : nat -> ascii) (w : World) : World :=
  {| w_stdin := w_stdin w;
     w_http_proxy := w_http_proxy w;
     w_atoi_overflow := w_atoi_overflow w;
     w_inet_addr := w_inet_addr w;
     w_gethostbyname := w_gethostbyname w;
     w_socket := w_socket w;
     w_connect := w_connect w;
     w_send := w_send w;
     w_recv := w_recv w;
     w_recv_buf := g;
     w_errno := w_errno w |}.

(** The example behind a proxy whose port is written 65616. *)
Definition example_port_wrap_world : World :=
  with_http_proxy (Some "http://proxy.example:65616") example_proxy_world.

(** The example with nothing but white space on standard input. *)
Definition example_blank_input_world : World :=
  {| w_stdin := "  " ++ nl;
     w_http_proxy := None;
     w_atoi_overflow := glibc_overflow;
     w_inet_addr := w_inet_addr example_direct_world;
     w_gethostbyname := w_gethostbyname example_direct_world;
     w_socket := 3;
     w_connect := 0;
     w_send := 69;
     w_recv := w_recv example_direct_world;
     w_recv_buf := w_recv_buf example_direct_world;
     w_errno := 0 |}.

(** * Properties *)

(** ** Strings *)

Lemma append_nil_r (s : string) : s ++ "" = s.
Proof. induction s; simpl; congruence. Qed.

Lemma append_assoc (a b c : string) : (a ++ b) ++ c = a ++ b ++ c.
Proof. induction a; simpl; congruence. Qed.

Lemma length_append (a b : string) :
  String.length (a ++ b) = (String.length a + String.length b)%nat.
Proof. induction a; simpl; congruence. Qed.

Lemma str_take_all (n : nat) (s : string) :
  (String.length s <= n)%nat -> str_take n s = s.
Proof.
  revert n; induction s as [|c s IH]; intros [|n] H; simpl in *; try reflexivity.
  - lia.
  - f_equal. apply IH. lia.
Qed.

Lemma str_take_append (a b : string) : str_take (String.length a) (a ++ b) = a.
Proof. induction a; simpl; [destruct b|]; congruence. Qed.

Lemma str_drop_append (a b : string) : str_drop (String.length a) (a ++ b) = b.
Proof. induction a; simpl; congruence. Qed.

Lemma str_drop_strlen (s : string) : str_drop (strlen s) s = "".
Proof. unfold strlen. induction s; simpl; congruence. Qed.

Lemma str_take_drop (n : nat) (s : string) : str_take n s ++ str_drop n s = s.
Proof.
  revert n; induction s as [|c s IH]; intros [|n]; simpl; try reflexivity.
  f_equal. apply IH.
Qed.

Lemma length_str_take (n : nat) (s : string) :
  (String.length (str_take n s) <= String.length s)%nat.
Proof.
  revert n; induction s as [|c s IH]; intros [|n]; simpl; try lia.
  specialize (IH n). lia.
Qed.

Lemma length_str_drop (n : nat) (s : string) :
  (String.length (str_drop n s) <= String.length s)%nat.
Proof.
  revert n; induction s as [|c s IH]; intros [|n]; simpl; try lia.
  specialize (IH n). lia.
Qed.

Lemma strchr_none (s : string) (c : ascii) :
  strchr s c = None <-> ~ occurs c s.
Proof.
  induction s as [|x s IH]; simpl.
  - tauto.
  - destruct (Ascii.eqb_spec x c) as [E|E].
    + split; [discriminate | intros H; exfalso; apply H; now left].
    + destruct (strchr s c) as [j|].
      * split; [discriminate|]. intros H.
        assert (Some j = None) by (apply IH; tauto). discriminate.
      * split; [|reflexivity]. intros _ [H|H]; [congruence|].
        now apply (proj1 IH).
Qed.

Lemma strchr_append (a b : string) (c : ascii) :
  ~ occurs c a -> strchr (a ++ String c b) c = Some (String.length a).
Proof.
  induction a as [|x a IH]; simpl; intros H.
  - now rewrite Ascii.eqb_refl.
  - destruct (Ascii.eqb_spec x c) as [E|E]; [tauto|].
    rewrite IH; tauto.
Qed.

Lemma strchr_some (s : string) (c : ascii) (i : nat) :
  strchr s c = Some i ->
  s = str_take i s ++ String c (str_drop (S i) s)
  /\ ~ occurs c (str_take i s)
  /\ String.length (str_take i s) = i.
Proof.
  revert i; induction s as [|x s IH]; simpl; intros i H; [discriminate|].
  destruct (Ascii.eqb_spec x c) as [E|E].
  - injection H as <-. subst x. simpl. tauto.
  - destruct (strchr s c) as [j|]; [|discriminate].
    injection H as <-. destruct (IH j eq_refl) as (H1 & H2 & H3).
    simpl. repeat split.
    + f_equal. exact H1.
    + tauto.
    + now rewrite H3.
Qed.

Lemma occurs_append (c : ascii) (a b : string) :
  occurs c (a ++ b) <-> occurs c a \/ occurs c b.
Proof. induction a; simpl; tauto. Qed.

Lemma uchar_inj (x y : ascii) : uchar x = uchar y -> x = y.
Proof.
  unfold uchar. intros H. apply Nat2Z.inj in H.
  rewrite <- (ascii_nat_embedding x), <- (ascii_nat_embedding y). now f_equal.
Qed.

Lemma uchar_diff (x y : ascii) : x <> y -> (uchar x - uchar y =? 0) = false.
Proof.
  intros H. apply Z.eqb_neq. intros E. apply H, uchar_inj. lia.
Qed.

Lemma uchar_nonzero (x : ascii) : x <> NUL -> uchar x <> 0.
Proof. intros H E. apply H, uchar_inj. rewrite E. reflexivity. Qed.

Lemma prefix_cons (x y : ascii) (p s : string) :
  String.prefix (String x p) (String y s)
  = if Ascii.eqb x y then String.prefix p s else false.
Proof.
  simpl. destruct (ascii_dec x y) as [E|E].
  - subst. now rewrite Ascii.eqb_refl.
  - apply Ascii.eqb_neq in E. now rewrite E.
Qed.

(** [strncmp] against a prefix free of NUL, in both argument orders. *)
Lemma strncmp_prefix_l (p s : string) :
  ~ occurs NUL p ->
  (strncmp p s (String.length p) =? 0) = String.prefix p s.
Proof.
  revert s; induction p as [|x p IH]; intros s H.
  - now destruct s.
  - destruct s as [|y s].
    + cbn [strncmp String.length]. simpl String.prefix.
      apply Z.eqb_neq, uchar_nonzero. simpl in H. intros ->. tauto.
    + cbn [strncmp String.length]. rewrite prefix_cons.
      destruct (Ascii.eqb_spec x y) as [E|E].
      * apply IH. simpl in H. tauto.
      * now apply uchar_diff.
Qed.

Lemma strncmp_prefix_r (p s : string) :
  ~ occurs NUL p ->
  (strncmp s p (String.length p) =? 0) = String.prefix p s.
Proof.
  revert s; induction p as [|x p IH]; intros s H.
  - now destruct s.
  - destruct s as [|y s].
    + cbn [strncmp String.length]. simpl String.prefix.
      apply Z.eqb_neq. intros E. apply (uchar_nonzero x); [|lia].
      simpl in H. intros ->. tauto.
    + cbn [strncmp String.length]. rewrite prefix_cons.
      rewrite (Ascii.eqb_sym y x).
      destruct (Ascii.eqb_spec x y) as [E|E].
      * apply IH. simpl in H. tauto.
      * apply uchar_diff. congruence.
Qed.

Lemma scheme_no_nul : ~ occurs NUL "http://".
Proof. simpl. unfold NUL. intuition discriminate. Qed.

Lemma strncmp_scheme_l (url : string) :
  (strncmp "http://" url 7 =? 0) = String.prefix "http://" url.
Proof. exact (strncmp_prefix_l "http://" url scheme_no_nul). Qed.

Lemma strncmp_scheme_r (env : string) :
  (strncmp env "http://" 7 =? 0) = String.prefix "http://" env.
Proof. exact (strncmp_prefix_r "http://" env scheme_no_nul). Qed.

Lemma prefix_append (p r : string) : String.prefix p (p ++ r) = true.
Proof.
  induction p as [|x p IH].
  - now destruct r.
  - change (String x p ++ r) with (String x (p ++ r)).
    now rewrite prefix_cons, Ascii.eqb_refl.
Qed.

Lemma prefix_true (p s : string) :
  String.prefix p s = true -> s = p ++ str_drop (String.length p) s.
Proof.
  revert s; induction p as [|x p IH]; intros s H.
  - reflexivity.
  - destruct s as [|y s]; [discriminate|].
    rewrite prefix_cons in H. destruct (Ascii.eqb_spec x y) as [E|E]; [|discriminate].
    subst y. simpl. f_equal. now apply IH.
Qed.

(** ** The URL parser *)

(** The parser's pointer [host], before the split. *)
Lemma parse_url_remainder (url rest : string) :
  remainder_of url rest ->
  parse_url url =
  match strchr rest "/" with
  | Some i => (str_take i rest, str_drop (S i) rest)
  | None => (rest, "")
  end.
Proof.
  intros [H | [H1 H2]]; unfold parse_url; rewrite strncmp_scheme_l.
  - subst url. rewrite prefix_append.
    change 7%nat with (String.length "http://"). rewrite str_drop_append.
    destruct (strchr rest "/"); [reflexivity|]. now rewrite str_drop_strlen.
  - subst rest. rewrite H2.
    destruct (strchr url "/"); [reflexivity|]. now rewrite str_drop_strlen.
Qed.

Lemma remainder_exists (url : string) : exists rest, remainder_of url rest.
Proof.
  destruct (String.prefix "http://" url) eqn:E.
  - exists (str_drop 7 url). left. now apply prefix_true in E.
  - exists url. right. tauto.
Qed.

Lemma remainder_unique (url r1 r2 : string) :
  remainder_of url r1 -> remainder_of url r2 -> r1 = r2.
Proof.
  intros [H1 | [H1 E1]] [H2 | [H2 E2]]; subst.
  - change 7%nat with (String.length "http://") in *.
    rewrite <- (str_drop_append "http://" r1), <- (str_drop_append "http://" r2).
    now rewrite H2.
  - now rewrite prefix_append in E2.
  - now rewrite prefix_append in E1.
  - reflexivity.
Qed.

Lemma parse_url_split (url rest h p : string) :
  remainder_of url rest -> rest = h ++ "/" ++ p -> ~ occurs "/" h ->
  parse_url url = (h, p).
Proof.
  intros Hr -> Hh. rewrite (parse_url_remainder _ _ Hr).
  change ("/" ++ p) with (String "/" p).
  rewrite (strchr_append h p "/" Hh).
  rewrite str_take_append.
  replace (S (String.length h)) with (String.length (h ++ "/")).
  - rewrite <- (str_drop_append (h ++ "/") p) at 2.
    now rewrite append_assoc.
  - rewrite length_append. simpl. lia.
Qed.

Lemma parse_url_no_slash (url rest : string) :
  remainder_of url rest -> ~ occurs "/" rest -> parse_url url = (rest, "").
Proof.
  intros Hr Hn. rewrite (parse_url_remainder _ _ Hr).
  apply strchr_none in Hn. now rewrite Hn.
Qed.

(** C4: the parser strips a leading ["http://"] if there is one and splits
    the remainder at its first ['/']: what is before it is the host, what is
    after it the path; a remainder without ['/'] is the host, and the path
    is empty. The remainder is defined for every URL, and
    ["http://host/path"] gives [host] and [path]. *)
Theorem C4_parse_url (url : string) :
  (exists rest, remainder_of url rest)
  /\ (forall rest h p,
        remainder_of url rest -> rest = h ++ "/" ++ p -> ~ occurs "/" h ->
        parse_url url = (h, p))
  /\ (forall rest,
        remainder_of url rest -> ~ occurs "/" rest ->
        parse_url url = (rest, ""))
  /\ (forall h p,
        ~ occurs "/" h -> parse_url ("http://" ++ h ++ "/" ++ p) = (h, p)).
Proof.
  split; [apply remainder_exists|].
  split; [intros rest h p; apply parse_url_split|].
  split; [intros rest; apply parse_url_no_slash|].
  intros h p Hh. apply (parse_url_split _ (h ++ "/" ++ p)); auto.
  now left.
Qed.

Lemma parse_url_trailing_slash (url rest h : string) :
  remainder_of url rest -> rest = h ++ "/" -> ~ occurs "/" h ->
  parse_url url = (h, "").
Proof.
  intros Hr E Hh. apply (parse_url_split url rest h ""); auto.
Qed.

Lemma request_line_direct_root (host : string) :
  request_line (build_request false host "") = "GET / HTTP/1.1".
Proof. reflexivity. Qed.

(** C5: when the remainder of the URL has no ['/'], and likewise when its
    only ['/'] is its last character, the path is empty and the request line
    of the direct request is ["GET / HTTP/1.1"], which is neither
    ["GET  HTTP/1.1"] nor ["GET // HTTP/1.1"]. *)
Theorem C5_empty_path_request_line (url rest : string) :
  remainder_of url rest ->
  (~ occurs "/" rest \/ exists h, rest = h ++ "/" /\ ~ occurs "/" h) ->
  let (host, path) := parse_url url in
  path = ""
  /\ request_line (build_request false host path) = "GET / HTTP/1.1"
  /\ request_line (build_request false host path) <> "GET  HTTP/1.1"
  /\ request_line (build_request false host path) <> "GET // HTTP/1.1".
Proof.
  intros Hr H.
  assert (E : exists host, parse_url url = (host, "")).
  { destruct H as [H | (h & H1 & H2)].
    - exists rest. now apply parse_url_no_slash.
    - exists h. now apply (parse_url_trailing_slash url rest). }
  destruct E as (host & ->).
  rewrite request_line_direct_root.
  repeat split; discriminate.
Qed.

Lemma C5_empty_path_request_line_witness :
  (let (host, path) := parse_url "http://example.com" in
   path = ""
   /\ request_line (build_request false host path) = "GET / HTTP/1.1"
   /\ request_line (build_request false host path) <> "GET  HTTP/1.1"
   /\ request_line (build_request false host path) <> "GET // HTTP/1.1")
  /\
  (let (host, path) := parse_url "example.com/" in
   path = ""
   /\ request_line (build_request false host path) = "GET / HTTP/1.1"
   /\ request_line (build_request false host path) <> "GET  HTTP/1.1"
   /\ request_line (build_request false host path) <> "GET // HTTP/1.1").
Proof.
  split.
  - apply (C5_empty_path_request_line "http://example.com" "example.com").
    + left. reflexivity.
    + left. simpl. intuition discriminate.
  - apply (C5_empty_path_request_line "example.com/" "example.com/").
    + right. split; reflexivity.
    + right. exists "example.com". split; [reflexivity|].
      simpl. intuition discriminate.
Defined.

(** ** The size of the request, and the algebra of runs *)

Lemma scanf_s_length (width : nat) (input url : string) :
  scanf_s width input = Some url -> (String.length url <= width)%nat.
Proof.
  unfold scanf_s. intros H.
  assert (L : forall n s, (String.length (until_nul (take_token n s)) <= n)%nat).
  { induction n as [|n IH]; intros [|c s]; simpl; try lia.
    destruct (isspace c); simpl; [lia|].
    destruct (Ascii.eqb c NUL); simpl; [lia|]. specialize (IH s). lia. }
  destruct (skip_space input); [discriminate|].
  injection H as <-. apply L.
Qed.

Lemma parse_url_length (url host path : string) :
  parse_url url = (host, path) ->
  (String.length host + String.length path <= String.length url)%nat.
Proof.
  unfold parse_url.
  set (h := if strncmp "http://" url 7 =? 0 then str_drop 7 url else url).
  assert (Hh : (String.length h <= String.length url)%nat).
  { subst h. destruct (_ =? 0); [apply length_str_drop | lia]. }
  destruct (strchr h "/") as [i|] eqn:E; intros H; injection H as <- <-.
  - apply strchr_some in E. destruct E as (E & _ & _).
    rewrite E in Hh at 1. rewrite length_append in Hh. simpl in Hh. lia.
  - rewrite str_drop_strlen. simpl. lia.
Qed.

(** With a URL of at most 1023 characters, the request fits [send_buf]. *)
Lemma build_request_proxy (host path : string) :
  (String.length host + String.length path <= 1023)%nat ->
  build_request true host path =
  "GET http://" ++ host ++ "/" ++ path ++ " HTTP/1.1" ++ crlf ++
  "Host: " ++ host ++ crlf ++ "Connection: close" ++ crlf ++ crlf.
Proof.
  intros H. unfold build_request, snprintf. apply str_take_all.
  repeat (rewrite length_append; cbn [String.length crlf]).
  change (Z.to_nat bufsz) with 4096%nat. lia.
Qed.

Lemma build_request_direct (host path : string) :
  (String.length host + String.length path <= 1023)%nat ->
  build_request false host path =
  "GET /" ++ path ++ " HTTP/1.1" ++ crlf ++
  "Host: " ++ host ++ ":80" ++ crlf ++ "Connection: close" ++ crlf ++ crlf.
Proof.
  intros H. unfold build_request, snprintf. apply str_take_all.
  repeat (rewrite length_append; cbn [String.length crlf]).
  change (Z.to_nat bufsz) with 4096%nat. lia.
Qed.

Lemma trace_bind {A B : Type} (m : M A) (k : A -> M B) :
  trace (bind m k)
  = (trace m ++ match result m with
                | Returned a => trace (k a)
                | _ => []
                end)%list.
Proof.
  destruct m as [t [a| | |]]; cbn; try (now rewrite app_nil_r).
  now destruct (k a).
Qed.

Lemma result_bind {A B : Type} (m : M A) (k : A -> M B) :
  result (bind m k)
  = match result m with
    | Returned a => result (k a)
    | Exited c => Exited c
    | Blocked => Blocked
    | Fault => Fault
    end.
Proof.
  destruct m as [t [a| | |]]; cbn; try reflexivity.
  now destruct (k a).
Qed.

Lemma recv_loop_events (s : Z) (script : list recv_event) (b : buffer) :
  Forall (is_recv_or_stdout s) (trace (recv_loop s script b)).
Proof.
  revert b; induction script as [|ev script IH]; intros b.
  - repeat constructor.
  - cbn [recv_loop]. rewrite trace_bind. apply Forall_app. split.
    + repeat constructor.
    + cbn [result emit snd]. destruct ev as [bytes|e]; [|constructor].
      destruct (Z.of_nat (strlen bytes) >? 0); [|constructor].
      rewrite trace_bind.
      destruct (buf_copy b 0 bytes) as [b1|]; [|constructor].
      cbn [lift_mem ret result trace fst snd app]. rewrite trace_bind.
      destruct (buf_store b1 (Z.of_nat (strlen bytes)) NUL) as [b2|];
        [|constructor].
      cbn [lift_mem ret result trace fst snd app]. rewrite trace_bind.
      destruct (buf_cstr b2) as [text|]; [|constructor].
      cbn [lift_mem ret result trace fst snd app]. rewrite trace_bind.
      constructor; [exact I | apply IH].
Qed.

Lemma sends_of_app (t1 t2 : list event) :
  sends_of (t1 ++ t2) = (sends_of t1 ++ sends_of t2)%list.
Proof.
  induction t1 as [|e t1 IH]; [reflexivity|].
  destruct e; cbn; rewrite ?IH; reflexivity.
Qed.

Lemma lookups_of_app (t1 t2 : list event) :
  lookups_of (t1 ++ t2) = (lookups_of t1 ++ lookups_of t2)%list.
Proof.
  induction t1 as [|e t1 IH]; [reflexivity|].
  destruct e; cbn; rewrite ?IH; reflexivity.
Qed.

Lemma connects_of_app (t1 t2 : list event) :
  connects_of (t1 ++ t2) = (connects_of t1 ++ connects_of t2)%list.
Proof.
  induction t1 as [|e t1 IH]; [reflexivity|].
  destruct e; cbn; rewrite ?IH; reflexivity.
Qed.

Lemma recvs_of_app (t1 t2 : list event) :
  recvs_of (t1 ++ t2) = (recvs_of t1 ++ recvs_of t2)%list.
Proof.
  induction t1 as [|e t1 IH]; [reflexivity|].
  destruct e; cbn; rewrite ?IH; reflexivity.
Qed.

Lemma stdout_of_app (t1 t2 : list event) :
  stdout_of (t1 ++ t2) = stdout_of t1 ++ stdout_of t2.
Proof.
  induction t1 as [|e t1 IH]; [reflexivity|].
  destruct e; cbn; rewrite ?IH, ?append_assoc; reflexivity.
Qed.

(** The receive loop sends nothing, looks nothing up and connects
    nowhere. *)
Lemma recv_or_stdout_quiet (s : Z) (t : list event) :
  Forall (is_recv_or_stdout s) t ->
  sends_of t = [] /\ lookups_of t = [] /\ connects_of t = []
  /\ Forall (fun len => len = bufsz - 2) (recvs_of t).
Proof.
  induction 1 as [|e t He Ht IH]; [repeat split; constructor|].
  destruct e; cbn in *; try tauto.
  destruct IH as (? & ? & ? & ?). repeat split; auto.
  constructor; tauto.
Qed.

Lemma closes_of_app (t1 t2 : list event) :
  closes_of (t1 ++ t2) = (closes_of t1 ++ closes_of t2)%list.
Proof.
  induction t1 as [|e t1 IH]; [reflexivity|].
  destruct e; cbn; rewrite ?IH; reflexivity.
Qed.

Lemma recv_or_stdout_closes (s : Z) (t : list event) :
  Forall (is_recv_or_stdout s) t -> closes_of t = [].
Proof.
  induction 1 as [|e t He Ht IH]; [reflexivity|].
  destruct e; cbn in *; tauto.
Qed.

Lemma protocol_run_app (s : Z) (p : phase) (t1 t2 : list event) :
  protocol_run s p (t1 ++ t2)
  = match protocol_run s p t1 with
    | Some p' => protocol_run s p' t2
    | None => None
    end.
Proof.
  revert p; induction t1 as [|e t1 IH]; intros p; [reflexivity|].
  cbn [app protocol_run]. destruct (protocol_step s p e); [apply IH | reflexivity].
Qed.

(** The receive loop keeps to the phase that follows [send]. *)
Lemma recv_or_stdout_protocol (s : Z) (t : list event) :
  Forall (is_recv_or_stdout s) t -> protocol_run s PSent t = Some PSent.
Proof.
  induction 1 as [|e t He Ht IH]; [reflexivity|].
  destruct e; cbn in He; try contradiction; cbn [protocol_run protocol_step].
  - exact IH.
  - destruct He as [-> _]. now rewrite Z.eqb_refl.
Qed.

(** ** Runs of [main], once the URL is read *)

Lemma cons_app_split {A : Type} (e : A) (l t r : list A) :
  l = (t ++ r)%list -> e :: l = ((e :: t) ++ r)%list.
Proof. intros ->. reflexivity. Qed.

Lemma nil_app_split {A : Type} (l r : list A) : l = r -> l = ([] ++ r)%list.
Proof. intros ->. reflexivity. Qed.

Section Runs.

Variable w : World.
Variables url host path : string.
Hypothesis Hscan : scanf_s 1023 (w_stdin w) = Some url.
Hypothesis Hparse : parse_url url = (host, path).

Let px := proxy_resolver (w_atoi_overflow w) (w_http_proxy w).
Let connectTo := fst (connect_target px host).
Let connectPort := snd (connect_target px host).
Let send_buf := build_request (useProxy px) host path.
Let recv_buf := {| buf_size := Z.to_nat bufsz; buf_at := w_recv_buf w |}.
Let loop := recv_loop (w_socket w) (w_recv w) recv_buf.

Ltac reduce_run :=
  cbv beta iota zeta
    delta [bind ret printf emit perr_exit trace result negb andb
           WSAGetLastError];
  cbn [app];
  cbv beta iota delta [negb andb] in *.

Ltac start_main :=
  unfold dies_with, connected, address_of in *;
  unfold main; rewrite Hscan; reduce_run; rewrite Hparse;
  change (fst (host, path)) with host; change (snd (host, path)) with path;
  fold px; fold connectTo; fold connectPort; fold send_buf; fold recv_buf.

Ltac case_on c :=
  lazymatch goal with
  | |- context [c] => destruct c eqn:?; reduce_run
  | _ => idtac
  end.

(* All the runs: one goal per answer of the operating system. In the runs
   that reach the receive loop, its trace is [t] and the value of [recv]
   that ended it is [rc]. *)
Ltac run_cases :=
  start_main;
  case_on (useProxy px);
  case_on (w_inet_addr w connectTo =? INADDR_NONE);
  case_on (w_gethostbyname w connectTo);
  case_on (w_socket w <? 0);
  case_on (w_connect w =? 0);
  case_on (w_send w <? Z.of_nat (strlen send_buf));
  lazymatch goal with
  | |- context [recv_loop (w_socket w) (w_recv w) recv_buf] =>
      unfold loop in *;
      let t := fresh "t" in
      let rc := fresh "rc" in
      destruct (recv_loop (w_socket w) (w_recv w) recv_buf) as [t [rc| | |]];
      reduce_run; try (destruct (rc <? 0) eqn:?; reduce_run);
      cbn [trace result] in *
  | _ => idtac
  end.

Lemma loop_quiet :
  sends_of (trace loop) = [] /\ lookups_of (trace loop) = []
  /\ connects_of (trace loop) = []
  /\ Forall (fun len => len = bufsz - 2) (recvs_of (trace loop)).
Proof. apply (recv_or_stdout_quiet (w_socket w)), recv_loop_events. Qed.

Lemma run_sends :
  sends_of (trace (main w))
  = if connected w connectTo then [(send_buf, Z.of_nat (strlen send_buf))]
    else [].
Proof.
  destruct loop_quiet as (Hq & _).
  run_cases; try reflexivity;
    cbn [sends_of]; rewrite ?sends_of_app, Hq; reflexivity.
Qed.

Lemma run_lookups :
  hd_error (lookups_of (trace (main w))) = Some connectTo
  /\ Forall (eq connectTo) (lookups_of (trace (main w))).
Proof.
  destruct loop_quiet as (_ & Hq & _).
  run_cases; cbn [lookups_of]; rewrite ?lookups_of_app, ?Hq;
    (split; [reflexivity | repeat constructor]).
Qed.

Lemma run_connects :
  connects_of (trace (main w))
  = match address_of w connectTo with
    | Some a => if w_socket w <? 0 then [] else [(a, htons connectPort)]
    | None => []
    end.
Proof.
  destruct loop_quiet as (_ & _ & Hq & _).
  run_cases; try reflexivity;
    cbn [connects_of]; rewrite ?connects_of_app, Hq; reflexivity.
Qed.

Lemma run_recvs :
  Forall (fun len => len = bufsz - 2) (recvs_of (trace (main w)))
  /\ recvs_of (trace (main w))
     = if connected w connectTo && negb (w_send w <? Z.of_nat (strlen send_buf))
       then recvs_of (trace loop) else [].
Proof.
  destruct loop_quiet as (_ & _ & _ & Hq).
  run_cases; cbn [recvs_of]; try (split; [constructor | reflexivity]);
    rewrite ?recvs_of_app; cbn [recvs_of]; rewrite ?app_nil_r;
    (split; [exact Hq | reflexivity]).
Qed.

Lemma run_resolve_fails :
  address_of w connectTo = None ->
  dies_with (main w) "Cannot resolve connectTo" (w_errno w).
Proof. intros H. run_cases; try discriminate; split; reflexivity. Qed.

Lemma run_socket_fails :
  address_of w connectTo <> None -> w_socket w < 0 ->
  dies_with (main w) "Cannot create socket" (w_errno w).
Proof.
  intros H Hs. apply Z.ltb_lt in Hs.
  run_cases; try congruence; split; reflexivity.
Qed.

Lemma run_connect_fails :
  address_of w connectTo <> None -> 0 <= w_socket w -> w_connect w <> 0 ->
  dies_with (main w) "Cannot connect" (w_errno w).
Proof.
  intros H Hs Hc. apply Z.ltb_ge in Hs. apply Z.eqb_neq in Hc.
  run_cases; try congruence; split; reflexivity.
Qed.

Lemma run_send_fails :
  connected w connectTo = true -> w_send w < Z.of_nat (strlen send_buf) ->
  dies_with (main w) "Cannot send data" (w_errno w)
  /\ recvs_of (trace (main w)) = [].
Proof.
  intros H Hs. apply Z.ltb_lt in Hs.
  run_cases; try congruence; repeat split; reflexivity.
Qed.

(** The run from the first [recv] on, when the request was sent: what
    precedes ends with the start marker, then comes the receive loop, and
    what follows depends on how the loop ended. *)
Lemma run_receive :
  connected w connectTo = true -> Z.of_nat (strlen send_buf) <= w_send w ->
  exists t0,
    trace (main w)
    = (t0 ++ trace loop ++
       match result loop with
       | Returned rc =>
           if rc <? 0 then
             [EvStdout ("ERROR: " ++ "Error receiving data" ++ " (code " ++
                        dec (w_errno w) ++ ")" ++ nl)]
           else
             [EvStdout (nl ++ "---- End of response ----" ++ nl);
              EvStdout ("[Step 10] Closing socket and cleaning up." ++ nl);
              EvClose (w_socket w);
              EvStdout ("[Step 10] Done. Exiting." ++ nl)]
       | _ => []
       end)%list
    /\ recvs_of t0 = []
    /\ last_event t0 = Some (EvStdout ("---- Start of response ----" ++ nl))
    /\ result (main w)
       = match result loop with
         | Returned rc => if rc <? 0 then Exited (w_errno w) else Returned 0
         | Exited c => Exited c
         | Blocked => Blocked
         | Fault => Fault
         end.
Proof.
  intros H Hs. apply Z.ltb_ge in Hs.
  run_cases; try congruence; eexists;
    (split; [| repeat split];
     [ repeat (eapply cons_app_split); apply nil_app_split;
       rewrite ?app_nil_r; reflexivity
     | reflexivity .. ]).
Qed.

Lemma run_result :
  result (main w)
  = if connected w connectTo && negb (w_send w <? Z.of_nat (strlen send_buf))
    then match result loop with
         | Returned rc => if rc <? 0 then Exited (w_errno w) else Returned 0
         | Exited c => Exited c
         | Blocked => Blocked
         | Fault => Fault
         end
    else Exited (w_errno w).
Proof. run_cases; reflexivity. Qed.

Lemma loop_events :
  Forall (is_recv_or_stdout (w_socket w)) (trace loop).
Proof. apply recv_loop_events. Qed.

Lemma run_closes :
  closes_of (trace (main w))
  = match result (main w) with
    | Returned _ => [w_socket w]
    | _ => []
    end.
Proof.
  pose proof (recv_or_stdout_closes _ _ loop_events) as Hq.
  run_cases; try reflexivity;
    cbn [closes_of]; rewrite ?closes_of_app, Hq; reflexivity.
Qed.

Lemma run_protocol :
  exists p, protocol_run (w_socket w) PStart (trace (main w)) = Some p.
Proof.
  pose proof (recv_or_stdout_protocol _ _ loop_events) as Hq.
  run_cases;
    repeat (cbn [protocol_run protocol_step andb negb];
            rewrite ?Z.eqb_refl, ?protocol_run_app, ?Hq;
            repeat match goal with
                   | H : (w_socket w <? 0) = _ |- _ => rewrite H
                   end);
    eauto.
Qed.

End Runs.

Lemma main_no_url (w : World) :
  scanf_s 1023 (w_stdin w) = None ->
  dies_with (main w) "Failed to read URL" (-1)
  /\ lookups_of (trace (main w)) = []
  /\ connects_of (trace (main w)) = []
  /\ sends_of (trace (main w)) = []
  /\ recvs_of (trace (main w)) = [].
Proof.
  intros H. unfold dies_with, main. rewrite H. repeat split; reflexivity.
Qed.

(** ** The receive buffer and the receive loop *)

Lemma buf_store_some (b : buffer) (i : nat) (c : ascii) :
  (i < buf_size b)%nat ->
  buf_store b (Z.of_nat i) c
  = Some {| buf_size := buf_size b;
            buf_at := fun j => if Nat.eqb j i then c else buf_at b j |}.
Proof.
  intros H. unfold buf_store.
  replace ((0 <=? Z.of_nat i) && (Z.of_nat i <? Z.of_nat (buf_size b)))
    with true.
  - now rewrite Nat2Z.id.
  - symmetry. apply andb_true_intro. split; [apply Z.leb_le | apply Z.ltb_lt]; lia.
Qed.

(** The copy of [data] to [b[off...]] stays inside of the array when
    [data] fits, and changes nothing below [off]. *)
Lemma buf_copy_some (data : string) (b : buffer) (off : nat) :
  (off + String.length data <= buf_size b)%nat ->
  exists b',
    buf_copy b off data = Some b'
    /\ buf_size b' = buf_size b
    /\ (forall k c, String.get k data = Some c -> buf_at b' (off + k) = c)
    /\ (forall j, (j < off)%nat -> buf_at b' j = buf_at b j).
Proof.
  revert b off; induction data as [|x data IH]; intros b off H.
  - exists b. cbn. repeat split; auto. intros k c; destruct k; discriminate.
  - cbn [buf_copy]. cbn [String.length] in H.
    rewrite buf_store_some by lia.
    destruct (IH {| buf_size := buf_size b;
                    buf_at := fun j => if Nat.eqb j off then x else buf_at b j |}
                 (S off)) as (b' & E & Hsz & Hget & Hlow); [cbn; lia|].
    exists b'. cbn in *. repeat split; auto.
    + intros [|k] c Hk.
      * cbn in Hk. injection Hk as <-. rewrite Nat.add_0_r, Hlow by lia.
        now rewrite Nat.eqb_refl.
      * cbn in Hk. rewrite <- (Hget k c Hk). f_equal. lia.
    + intros j Hj. rewrite Hlow by lia.
      destruct (Nat.eqb_spec j off); [lia | reflexivity].
Qed.

(** Reading back a C string: the characters stored, up to the first NUL. *)
Lemma buf_cstr_from_until_nul (s : string) (b : buffer) (i fuel : nat) :
  (forall k c, String.get k s = Some c -> buf_at b (i + k) = c) ->
  buf_at b (i + String.length s) = NUL ->
  (i + String.length s < buf_size b)%nat ->
  (String.length s < fuel)%nat ->
  buf_cstr_from b i fuel = Some (until_nul s).
Proof.
  revert i fuel; induction s as [|x s IH]; intros i fuel Hget Hnul Hsz Hfuel;
    (destruct fuel as [|fuel]; [cbn in Hfuel; lia|]); cbn [buf_cstr_from].
  - cbn [String.length until_nul] in *. rewrite Nat.add_0_r in *.
    destruct (Nat.ltb_spec i (buf_size b)); [|lia].
    rewrite Hnul. reflexivity.
  - cbn [String.length until_nul] in *.
    destruct (Nat.ltb_spec i (buf_size b)); [|lia].
    rewrite <- (Hget 0%nat x eq_refl), Nat.add_0_r.
    destruct (Ascii.eqb (buf_at b i) NUL); [reflexivity|].
    rewrite (IH (S i) fuel); try lia; [reflexivity | |].
    + intros k c Hk. rewrite <- (Hget (S k) c Hk). f_equal. lia.
    + rewrite <- Hnul. f_equal. lia.
Qed.

Lemma until_nul_id (s : string) : ~ occurs NUL s -> until_nul s = s.
Proof.
  induction s as [|x s IH]; cbn; intros H; [reflexivity|].
  destruct (Ascii.eqb_spec x NUL) as [E|E]; [tauto|].
  f_equal. apply IH. tauto.
Qed.

(** One turn of the receive loop on a chunk that [recv] may return: the
    chunk is printed up to its first NUL, and the loop goes on. *)
Lemma recv_loop_chunk (s : Z) (bytes : string) (script : list recv_event)
    (b : buffer) :
  buf_size b = Z.to_nat bufsz ->
  (0 < String.length bytes)%nat ->
  Z.of_nat (String.length bytes) <= bufsz - 2 ->
  exists b',
    buf_size b' = Z.to_nat bufsz
    /\ recv_loop s (RecvData bytes :: script) b
       = (emit (EvRecv s (bufsz - 2)) ;; printf (until_nul bytes) ;;
          recv_loop s script b').
Proof.
  intros Hsz Hpos Hlen.
  assert (Hn : (String.length bytes <= 4094)%nat) by (unfold bufsz in Hlen; lia).
  assert (Hs : buf_size b = 4096%nat) by (rewrite Hsz; reflexivity).
  destruct (buf_copy_some bytes b 0) as (b1 & E1 & Hsz1 & Hget & _); [lia|].
  set (b2 := {| buf_size := buf_size b1;
                buf_at := fun j => if Nat.eqb j (String.length bytes) then NUL
                                   else buf_at b1 j |}).
  assert (E2 : buf_store b1 (Z.of_nat (strlen bytes)) NUL = Some b2).
  { apply buf_store_some. unfold strlen. lia. }
  assert (E3 : buf_cstr b2 = Some (until_nul bytes)).
  { unfold buf_cstr. apply buf_cstr_from_until_nul.
    - intros k c Hk. cbn.
      assert (k < String.length bytes)%nat.
      { clear -Hk. revert k Hk. induction bytes as [|x r IH]; intros [|k] Hk;
          cbn in *; try discriminate; try lia. apply IH in Hk. lia. }
      destruct (Nat.eqb_spec k (String.length bytes)); [lia|].
      now apply Hget.
    - cbn. now rewrite Nat.eqb_refl.
    - cbn. lia.
    - cbn. lia. }
  exists b2. split; [unfold b2; cbn [buf_size]; congruence|].
  cbn [recv_loop].
  replace (Z.of_nat (strlen bytes) >? 0) with true
    by (symmetry; apply Z.gtb_lt; unfold strlen; lia).
  rewrite E1. cbn [lift_mem]. unfold bind at 2. cbn [ret].
  rewrite E2. cbn [lift_mem]. unfold bind at 2. cbn [ret].
  rewrite E3. cbn [lift_mem]. unfold bind at 2. cbn [ret].
  destruct (printf (until_nul bytes);; recv_loop s script b2) as [t r].
  now rewrite !app_nil_l.
Qed.

(** The chunks are printed one after the other; the loop goes on with the
    rest of what [recv] finds. *)
Lemma recv_loop_chunks (s : Z) (chunks : list string)
    (script : list recv_event) (b : buffer) :
  buf_size b = Z.to_nat bufsz ->
  Forall (fun c => (0 < String.length c)%nat
                   /\ Z.of_nat (String.length c) <= bufsz - 2) chunks ->
  exists b',
    buf_size b' = Z.to_nat bufsz
    /\ recv_loop s (map RecvData chunks ++ script) b
       = ((chunk_reads s (map until_nul chunks), Returned tt) ;;
          recv_loop s script b').
Proof.
  intros Hsz H. revert b Hsz.
  induction H as [|c chunks (Hpos & Hlen) _ IH]; intros b Hsz.
  - exists b. split; [exact Hsz|]. cbn.
    destruct (recv_loop s script b); reflexivity.
  - destruct (recv_loop_chunk s c (map RecvData chunks ++ script) b Hsz Hpos Hlen)
      as (b1 & Hsz1 & E1).
    destruct (IH b1 Hsz1) as (b2 & Hsz2 & E2).
    exists b2. split; [exact Hsz2|].
    cbn [map app]. rewrite E1, E2. cbn.
    destruct (recv_loop s script b2) as [t r]. reflexivity.
Qed.

Lemma recv_loop_eof (s : Z) (script : list recv_event) (b : buffer) :
  recv_loop s (RecvData "" :: script) b = ([EvRecv s (bufsz - 2)], Returned 0).
Proof. reflexivity. Qed.

Lemma recv_loop_error (s : Z) (e : positive) (script : list recv_event)
    (b : buffer) :
  recv_loop s (RecvError e :: script) b
  = ([EvRecv s (bufsz - 2)], Returned (Z.neg e)).
Proof. reflexivity. Qed.

Lemma recv_loop_first (s : Z) (script : list recv_event) (b : buffer) :
  exists t, trace (recv_loop s script b) = EvRecv s (bufsz - 2) :: t.
Proof.
  destruct script as [|ev script]; [now exists []|].
  cbn [recv_loop]. rewrite trace_bind. cbn. eauto.
Qed.

(** When [recv] keeps to its contract, the loop stays inside of
    [recv_buf]. *)
Lemma recv_loop_no_fault (s : Z) (script : list recv_event) (b : buffer) :
  buf_size b = Z.to_nat bufsz ->
  Forall (recv_contract (bufsz - 2)) script ->
  is_fault (result (recv_loop s script b)) = false.
Proof.
  intros Hsz H. revert b Hsz.
  induction H as [|ev script Hev _ IH]; intros b Hsz; [reflexivity|].
  destruct ev as [bytes|e]; [|reflexivity].
  destruct (Nat.eq_dec (String.length bytes) 0) as [E|E].
  - destruct bytes; [reflexivity | discriminate].
  - destruct (recv_loop_chunk s bytes script b Hsz) as (b' & Hsz' & ->).
    + lia.
    + exact Hev.
    + rewrite !result_bind. cbn. now apply IH.
Qed.

Lemma last_event_snoc (t : list event) (e : event) :
  last_event (t ++ [e]) = Some e.
Proof.
  destruct t as [|x t]; [reflexivity|].
  cbn. f_equal. apply (last_last t e x).
Qed.

Lemma map_until_nul_id (chunks : list string) :
  Forall (fun c => ~ occurs NUL c) chunks -> map until_nul chunks = chunks.
Proof.
  induction 1 as [|c chunks Hc _ IH]; cbn; [reflexivity|].
  now rewrite until_nul_id, IH.
Qed.

(** ** The connect target and the request (C1, C2) *)

(** C1: when proxying is enabled with the descriptor [(ph, pp)], the connect
    target is [(ph, pp)]: [ph] is the name looked up, and [connect] is given
    its address and the port [pp]; the request, sent when the connection is
    established, is exactly
    ["GET http://{host}/{path} HTTP/1.1\r\nHost: {host}\r\nConnection: close\r\n\r\n"]
    with the host and the path of the URL read. *)
Theorem C1_proxy_mode (w : World) (url host path ph : string) (pp : Z) :
  scanf_s 1023 (w_stdin w) = Some url ->
  parse_url url = (host, path) ->
  proxy_resolver (w_atoi_overflow w) (w_http_proxy w)
  = {| useProxy := true; proxyHost := ph; proxyPort := pp |} ->
  let request :=
    "GET http://" ++ host ++ "/" ++ path ++ " HTTP/1.1" ++ crlf ++
    "Host: " ++ host ++ crlf ++
    "Connection: close" ++ crlf ++
    crlf in
  connect_target (proxy_resolver (w_atoi_overflow w) (w_http_proxy w)) host
  = (ph, pp)
  /\ build_request true host path = request
  /\ hd_error (lookups_of (trace (main w))) = Some ph
  /\ Forall (eq ph) (lookups_of (trace (main w)))
  /\ connects_of (trace (main w))
     = match address_of w ph with
       | Some a => if w_socket w <? 0 then [] else [(a, htons pp)]
       | None => []
       end
  /\ sends_of (trace (main w))
     = if connected w ph then [(request, Z.of_nat (strlen request))] else [].
Proof.
  intros Hs Hp Hx request.
  assert (Hreq : build_request true host path = request).
  { apply build_request_proxy.
    pose proof (scanf_s_length _ _ _ Hs). pose proof (parse_url_length _ _ _ Hp).
    lia. }
  pose proof (run_lookups w url host path Hs Hp) as Hl.
  pose proof (run_connects w url host path Hs Hp) as Hc.
  pose proof (run_sends w url host path Hs Hp) as Hd.
  rewrite Hx in *. cbn [connect_target useProxy proxyHost proxyPort fst snd] in *.
  rewrite Hreq in Hd. tauto.
Qed.

(** C2: when proxying is disabled, the connect target is the host of the
    URL and port 80, and the request is exactly
    ["GET /{path} HTTP/1.1\r\nHost: {host}:80\r\nConnection: close\r\n\r\n"]. *)
Theorem C2_direct_mode (w : World) (url host path : string) :
  scanf_s 1023 (w_stdin w) = Some url ->
  parse_url url = (host, path) ->
  useProxy (proxy_resolver (w_atoi_overflow w) (w_http_proxy w)) = false ->
  let request :=
    "GET /" ++ path ++ " HTTP/1.1" ++ crlf ++
    "Host: " ++ host ++ ":80" ++ crlf ++
    "Connection: close" ++ crlf ++
    crlf in
  connect_target (proxy_resolver (w_atoi_overflow w) (w_http_proxy w)) host
  = (host, 80)
  /\ build_request false host path = request
  /\ hd_error (lookups_of (trace (main w))) = Some host
  /\ Forall (eq host) (lookups_of (trace (main w)))
  /\ connects_of (trace (main w))
     = match address_of w host with
       | Some a => if w_socket w <? 0 then [] else [(a, 80)]
       | None => []
       end
  /\ sends_of (trace (main w))
     = if connected w host then [(request, Z.of_nat (strlen request))] else [].
Proof.
  intros Hs Hp Hx request.
  assert (Hreq : build_request false host path = request).
  { apply build_request_direct.
    pose proof (scanf_s_length _ _ _ Hs). pose proof (parse_url_length _ _ _ Hp).
    lia. }
  pose proof (run_lookups w url host path Hs Hp) as Hl.
  pose proof (run_connects w url host path Hs Hp) as Hc.
  pose proof (run_sends w url host path Hs Hp) as Hd.
  unfold connect_target in *. rewrite Hx in *. cbn [fst snd] in *.
  rewrite Hreq in Hd. change (htons 80) with 80 in Hc. tauto.
Qed.

Lemma C1_proxy_mode_witness :
  sends_of (trace (main example_proxy_world))
  = [("GET http://example.com/index.html HTTP/1.1" ++ crlf ++
      "Host: example.com" ++ crlf ++ "Connection: close" ++ crlf ++ crlf, 84)]
  /\ connects_of (trace (main example_proxy_world)) = [(3221225985, 8080)].
Proof.
  pose proof (C1_proxy_mode example_proxy_world
                "http://example.com/index.html" "example.com" "index.html"
                "proxy.example" 8080 eq_refl eq_refl eq_refl) as H.
  split; [exact (proj2 (proj2 (proj2 (proj2 (proj2 H)))))
         | exact (proj1 (proj2 (proj2 (proj2 (proj2 H)))))].
Defined.

Lemma C2_direct_mode_witness :
  sends_of (trace (main example_direct_world))
  = [("GET /index.html HTTP/1.1" ++ crlf ++
      "Host: example.com:80" ++ crlf ++ "Connection: close" ++ crlf ++ crlf, 69)]
  /\ connects_of (trace (main example_direct_world)) = [(3221225985, 80)].
Proof.
  pose proof (C2_direct_mode example_direct_world
                "http://example.com/index.html" "example.com" "index.html"
                eq_refl eq_refl eq_refl) as H.
  split; [exact (proj2 (proj2 (proj2 (proj2 (proj2 H)))))
         | exact (proj1 (proj2 (proj2 (proj2 (proj2 H)))))].
Defined.

(** ** Sending (C7) *)

(** C7: once connected, the program calls [send] once, with the whole
    request; when [send] accepts fewer bytes than the request has, the run
    ends in [perr_exit("Cannot send data", errno)] before any [recv]; when
    it accepts them all, the receive loop is entered. *)
Theorem C7_send (w : World) (url host path : string) :
  scanf_s 1023 (w_stdin w) = Some url ->
  parse_url url = (host, path) ->
  let px := proxy_resolver (w_atoi_overflow w) (w_http_proxy w) in
  let request := build_request (useProxy px) host path in
  connected w (fst (connect_target px host)) = true ->
  sends_of (trace (main w)) = [(request, Z.of_nat (strlen request))]
  /\ (w_send w < Z.of_nat (strlen request) ->
      dies_with (main w) "Cannot send data" (w_errno w)
      /\ recvs_of (trace (main w)) = [])
  /\ (Z.of_nat (strlen request) <= w_send w ->
      exists lens, recvs_of (trace (main w)) = (bufsz - 2) :: lens).
Proof.
  intros Hs Hp px request Hc.
  split; [| split].
  - pose proof (run_sends w url host path Hs Hp) as H. cbv zeta in H.
    fold px in H. fold request in H. now rewrite Hc in H.
  - intros Hlt. exact (run_send_fails w url host path Hs Hp Hc Hlt).
  - intros Hge.
    destruct (run_recvs w url host path Hs Hp) as (_ & H). cbv zeta in H.
    fold px in H. fold request in H. rewrite Hc in H.
    replace (w_send w <? Z.of_nat (strlen request)) with false in H
      by (symmetry; apply Z.ltb_ge; exact Hge).
    cbn [andb negb] in H. rewrite H.
    destruct (recv_loop_first (w_socket w) (w_recv w)
                {| buf_size := Z.to_nat bufsz; buf_at := w_recv_buf w |})
      as (t & ->).
    cbn. eauto.
Qed.

Lemma C7_send_witness :
  sends_of (trace (main example_direct_world))
  = [("GET /index.html HTTP/1.1" ++ crlf ++
      "Host: example.com:80" ++ crlf ++ "Connection: close" ++ crlf ++ crlf, 69)]
  /\ exists lens,
       recvs_of (trace (main example_direct_world)) = (bufsz - 2) :: lens.
Proof.
  pose proof (C7_send example_direct_world
                "http://example.com/index.html" "example.com" "index.html"
                eq_refl eq_refl eq_refl) as H.
  split; [exact (proj1 H) | apply (proj2 (proj2 H)); apply Z.leb_le; reflexivity].
Defined.

(** ** Fatal errors (C8) *)

(** C8, as the code has it: each of the fatal errors that follow the
    reading of the URL ends the run in [perr_exit] with the code that
    [WSAGetLastError] returns: the message and that code are printed, and
    [exit] is called with that code, whatever its sign. *)
Theorem C8_fatal_errors (w : World) (url host path : string) :
  scanf_s 1023 (w_stdin w) = Some url ->
  parse_url url = (host, path) ->
  let px := proxy_resolver (w_atoi_overflow w) (w_http_proxy w) in
  let connectTo := fst (connect_target px host) in
  let request := build_request (useProxy px) host path in
  let loop := recv_loop (w_socket w) (w_recv w)
                {| buf_size := Z.to_nat bufsz; buf_at := w_recv_buf w |} in
  (address_of w connectTo = None ->
   dies_with (main w) "Cannot resolve connectTo" (w_errno w))
  /\ (address_of w connectTo <> None -> w_socket w < 0 ->
      dies_with (main w) "Cannot create socket" (w_errno w))
  /\ (address_of w connectTo <> None -> 0 <= w_socket w -> w_connect w <> 0 ->
      dies_with (main w) "Cannot connect" (w_errno w))
  /\ (connected w connectTo = true -> w_send w < Z.of_nat (strlen request) ->
      dies_with (main w) "Cannot send data" (w_errno w))
  /\ (connected w connectTo = true -> Z.of_nat (strlen request) <= w_send w ->
      forall rc, result loop = Returned rc -> rc < 0 ->
      dies_with (main w) "Error receiving data" (w_errno w)).
Proof.
  intros Hs Hp px connectTo request loop.
  split; [exact (run_resolve_fails w url host path Hs Hp)|].
  split; [exact (run_socket_fails w url host path Hs Hp)|].
  split; [exact (run_connect_fails w url host path Hs Hp)|].
  split.
  - intros Hc Hlt. exact (proj1 (run_send_fails w url host path Hs Hp Hc Hlt)).
  - intros Hc Hge rc Hrc Hneg.
    destruct (run_receive w url host path Hs Hp Hc Hge) as (t0 & Ht & _ & _ & Hr).
    cbv zeta in Ht, Hr. fold loop in Ht, Hr. rewrite Hrc in Ht, Hr.
    apply Z.ltb_lt in Hneg. rewrite Hneg in Ht, Hr.
    split; [exact Hr|].
    rewrite Ht, !app_assoc. apply last_event_snoc.
Qed.

(** ** Bounds of the receive buffer (C9) *)

(** C9: every call of [recv] asks for [bufsz - 2 = 4094] bytes; a
    terminator written at [recv_buf[rc]] with [0 < rc <= 4094] is inside of
    the array of 4096; and, [recv] returning no more than it is asked for,
    no run of [main] accesses an array outside of its bounds. *)
Theorem C9_recv_bounds (w : World) :
  Forall (fun len => len = bufsz - 2) (recvs_of (trace (main w)))
  /\ bufsz - 2 = 4094
  /\ (forall b rc,
        buf_size b = Z.to_nat bufsz -> 0 < rc <= bufsz - 2 ->
        exists b', buf_store b rc NUL = Some b' /\ buf_size b' = buf_size b)
  /\ (Forall (recv_contract (bufsz - 2)) (w_recv w) ->
      is_fault (result (main w)) = false).
Proof.
  split; [| split; [reflexivity | split]].
  - destruct (scanf_s 1023 (w_stdin w)) as [url|] eqn:Hs.
    + destruct (parse_url url) as [host path] eqn:Hp.
      exact (proj1 (run_recvs w url host path Hs Hp)).
    + destruct (main_no_url w Hs) as (_ & _ & _ & _ & ->). constructor.
  - intros b rc Hsz Hrc. unfold buf_store.
    replace ((0 <=? rc) && (rc <? Z.of_nat (buf_size b))) with true.
    + eexists. split; reflexivity.
    + symmetry. apply andb_true_intro.
      split; [apply Z.leb_le | apply Z.ltb_lt]; rewrite ?Hsz;
        unfold bufsz in *; lia.
  - intros Hrecv.
    destruct (scanf_s 1023 (w_stdin w)) as [url|] eqn:Hs.
    + destruct (parse_url url) as [host path] eqn:Hp.
      rewrite (run_result w url host path Hs Hp). cbv zeta.
      destruct (_ && _); [|reflexivity].
      pose proof (recv_loop_no_fault (w_socket w) (w_recv w)
                    {| buf_size := Z.to_nat bufsz; buf_at := w_recv_buf w |}
                    eq_refl Hrecv) as Hnf.
      destruct (result (recv_loop _ _ _)) as [rc| | |];
        try destruct (rc <? 0); auto.
    + destruct (main_no_url w Hs) as ((-> & _) & _). reflexivity.
Qed.

Lemma C8_fatal_errors_witness :
  dies_with (main partial_send_world) "Cannot send data" 0.
Proof.
  apply (C8_fatal_errors partial_send_world
           "http://example.com/index.html" "example.com" "index.html"
           eq_refl eq_refl).
  - reflexivity.
  - apply Z.ltb_lt. reflexivity.
Defined.

(** C8 fails as stated: [send] accepts 10 of the 69 bytes and sets no error,
    [errno] is 0, and the program prints that code and calls [exit(0)]: no
    other code stands in for the one that is not positive. *)
Lemma C8_exit_code_not_substituted :
  w_errno partial_send_world = 0
  /\ result (main partial_send_world) = Exited 0
  /\ last_event (trace (main partial_send_world))
     = Some (EvStdout ("ERROR: Cannot send data (code 0)" ++ nl)).
Proof. repeat split; reflexivity. Qed.

(** ** The receive loop (C6) *)

(** C6, as the code has it: the chunks that [recv] returns, each of them
    non-empty, of at most [bufsz - 2] bytes and free of NUL bytes, are
    printed as they are, one [printf] per chunk, headers included. The loop
    ends at the first read of zero bytes, after which the program prints
    the end marker, closes the socket and returns 0; a negative value of
    [recv] instead ends the run in [perr_exit("Error receiving data",
    errno)], and nothing else is printed after the chunks. *)
Theorem C6_transceiver (w : World) (url host path : string)
    (chunks : list string) (rest : list recv_event) :
  scanf_s 1023 (w_stdin w) = Some url ->
  parse_url url = (host, path) ->
  let px := proxy_resolver (w_atoi_overflow w) (w_http_proxy w) in
  let request := build_request (useProxy px) host path in
  let s := w_socket w in
  connected w (fst (connect_target px host)) = true ->
  Z.of_nat (strlen request) <= w_send w ->
  Forall (fun c => (0 < String.length c)%nat
                   /\ Z.of_nat (String.length c) <= bufsz - 2
                   /\ ~ occurs NUL c) chunks ->
  (w_recv w = (map RecvData chunks ++ RecvData "" :: rest)%list ->
   result (main w) = Returned 0
   /\ exists t0,
        recvs_of t0 = []
        /\ last_event t0 = Some (EvStdout ("---- Start of response ----" ++ nl))
        /\ trace (main w)
           = (t0 ++ chunk_reads s chunks ++
              [EvRecv s (bufsz - 2);
               EvStdout (nl ++ "---- End of response ----" ++ nl);
               EvStdout ("[Step 10] Closing socket and cleaning up." ++ nl);
               EvClose s;
               EvStdout ("[Step 10] Done. Exiting." ++ nl)])%list)
  /\ (forall e,
        w_recv w = (map RecvData chunks ++ RecvError e :: rest)%list ->
        result (main w) = Exited (w_errno w)
        /\ exists t0,
             recvs_of t0 = []
             /\ last_event t0
                = Some (EvStdout ("---- Start of response ----" ++ nl))
             /\ trace (main w)
                = (t0 ++ chunk_reads s chunks ++
                   [EvRecv s (bufsz - 2);
                    EvStdout ("ERROR: " ++ "Error receiving data" ++ " (code " ++
                              dec (w_errno w) ++ ")" ++ nl)])%list).
Proof.
  intros Hs Hp px request s Hc Hge Hchunks.
  destruct (run_receive w url host path Hs Hp Hc Hge)
    as (t0 & Ht & Hr0 & Hl0 & Hr).
  cbv zeta in Ht, Hr.
  assert (Hfit : Forall (fun c => (0 < String.length c)%nat
                   /\ Z.of_nat (String.length c) <= bufsz - 2) chunks).
  { eapply Forall_impl; [|exact Hchunks]. cbn. tauto. }
  assert (Hid : map until_nul chunks = chunks).
  { apply map_until_nul_id. eapply Forall_impl; [|exact Hchunks]. cbn. tauto. }
  split; [| intros e]; intros Hw; rewrite Hw in Ht, Hr;
    match type of Ht with
    | context [recv_loop ?s' (?l ++ ?script) ?b] =>
        destruct (recv_loop_chunks s' chunks script b eq_refl Hfit)
          as (b' & _ & Hloop)
    end;
    rewrite Hloop, Hid in Ht, Hr;
    rewrite ?recv_loop_eof, ?recv_loop_error in Ht, Hr;
    cbn [bind trace result app] in Ht, Hr;
    rewrite ?app_nil_r in Ht;
    (split; [exact Hr|]);
    exists t0; repeat split; auto;
    rewrite Ht, <- !app_assoc; reflexivity.
Qed.

Lemma C6_transceiver_witness :
  result (main example_direct_world) = Returned 0
  /\ exists t0,
       recvs_of t0 = []
       /\ last_event t0 = Some (EvStdout ("---- Start of response ----" ++ nl))
       /\ trace (main example_direct_world)
          = (t0 ++
             chunk_reads 3 [example_response] ++
             [EvRecv 3 (bufsz - 2);
              EvStdout (nl ++ "---- End of response ----" ++ nl);
              EvStdout ("[Step 10] Closing socket and cleaning up." ++ nl);
              EvClose 3;
              EvStdout ("[Step 10] Done. Exiting." ++ nl)])%list.
Proof.
  apply (C6_transceiver example_direct_world
           "http://example.com/index.html" "example.com" "index.html"
           [example_response] []
           eq_refl eq_refl eq_refl).
  - apply Z.leb_le. reflexivity.
  - constructor; [|constructor].
    split; [apply Nat.ltb_lt; reflexivity|].
    split; [apply Z.leb_le; reflexivity|].
    cbn. unfold NUL. intuition discriminate.
  - reflexivity.
Defined.

(** C6 fails as stated: a chunk of the three bytes ['a'], NUL, ['b'] is
    printed as ["a"]. *)
Lemma C6_nul_byte_truncates_chunk :
  recv_loop 3 [RecvData (String "a" (String NUL (String "b" ""))); RecvData ""]
    {| buf_size := Z.to_nat bufsz; buf_at := fun _ => "x"%char |}
  = ([EvRecv 3 4094; EvStdout "a"; EvRecv 3 4094], Returned 0).
Proof. vm_compute. reflexivity. Qed.

(** ** [atoi] *)

Lemma atoi_value_cases (s : string) :
  atoi_value s
  = match skip_space s with
    | EmptyString => 0
    | String c r =>
        if Ascii.eqb c "-" then - digits_acc r 0
        else if Ascii.eqb c "+" then digits_acc r 0
        else digits_acc (String c r) 0
    end.
Proof.
  unfold atoi_value. destruct (skip_space s) as [|c r]; [reflexivity|].
  destruct c as [[] [] [] [] [] [] [] []]; reflexivity.
Qed.

Lemma isdigit_range (c : ascii) :
  isdigit c = true <-> (48 <= nat_of_ascii c <= 57)%nat.
Proof.
  unfold isdigit. rewrite andb_true_iff, !Nat.leb_le. tauto.
Qed.

Lemma isdigit_not_space (c : ascii) : isdigit c = true -> isspace c = false.
Proof.
  rewrite isdigit_range. intros H. unfold isspace.
  apply orb_false_intro.
  - apply Nat.eqb_neq. lia.
  - apply andb_false_intro2. apply Nat.leb_gt. lia.
Qed.

Lemma isdigit_not_sign (c : ascii) :
  isdigit c = true -> Ascii.eqb c "-" = false /\ Ascii.eqb c "+" = false.
Proof.
  rewrite isdigit_range. intros H.
  split; apply Ascii.eqb_neq; intros ->; cbn in H; lia.
Qed.

Lemma digit_val_range (c : ascii) : isdigit c = true -> 0 <= digit_val c <= 9.
Proof. rewrite isdigit_range. unfold digit_val, uchar. lia. Qed.

Lemma digits_acc_no_digit (s : string) (acc : Z) :
  no_leading_digit s = true -> digits_acc s acc = acc.
Proof.
  destruct s as [|c s]; [reflexivity|]. cbn. now destruct (isdigit c).
Qed.

(** The digit loop computes the number the digits denote. *)
Lemma digits_acc_append (ds rest : string) (acc : Z) :
  all_digits ds = true -> no_leading_digit rest = true ->
  digits_acc (ds ++ rest) acc
  = acc * 10 ^ Z.of_nat (String.length ds) + decimal_value ds.
Proof.
  intros Hd Hr. revert acc; induction ds as [|c ds IH]; intros acc.
  - cbn [append String.length decimal_value]. rewrite digits_acc_no_digit by exact Hr.
    cbn. lia.
  - cbn [all_digits] in Hd. apply andb_true_iff in Hd as [Hc Hd].
    cbn [append digits_acc String.length decimal_value]. rewrite Hc, (IH Hd).
    rewrite Nat2Z.inj_succ, Z.pow_succ_r by lia. ring.
Qed.

Lemma decimal_value_nonneg (ds : string) :
  all_digits ds = true -> 0 <= decimal_value ds.
Proof.
  induction ds as [|c ds IH]; cbn [all_digits decimal_value]; [lia|].
  intros H. apply andb_true_iff in H as [Hc Hd].
  pose proof (digit_val_range c Hc). specialize (IH Hd).
  assert (0 <= 10 ^ Z.of_nat (String.length ds)) by (apply Z.pow_nonneg; lia).
  nia.
Qed.

Lemma atoi_leading_digits (overflow : Z -> Z) (ds rest : string) :
  all_digits ds = true -> no_leading_digit rest = true ->
  0 < decimal_value ds <= INT_MAX ->
  atoi overflow (ds ++ rest) = decimal_value ds.
Proof.
  intros Hd Hr Hv.
  assert (E : atoi_value (ds ++ rest) = decimal_value ds).
  { rewrite atoi_value_cases.
    destruct ds as [|c ds]; [cbn in Hv; lia|].
    pose proof Hd as Hd'. cbn [all_digits] in Hd'.
    apply andb_true_iff in Hd' as [Hc _].
    cbn [append skip_space]. rewrite (isdigit_not_space c Hc).
    destruct (isdigit_not_sign c Hc) as [-> ->].
    change (String c (ds ++ rest)) with (String c ds ++ rest).
    rewrite digits_acc_append by assumption. lia. }
  unfold atoi. rewrite E.
  replace ((INT_MIN <=? decimal_value ds) && (decimal_value ds <=? INT_MAX))
    with true; [reflexivity|].
  symmetry. apply andb_true_intro.
  split; [apply Z.leb_le; unfold INT_MIN; lia | apply Z.leb_le; lia].
Qed.



Lemma to_int_range (z : Z) : INT_MIN <= to_int z <= INT_MAX.
Proof.
  unfold to_int, INT_MIN, INT_MAX.
  pose proof (Z.mod_pos_bound (z + 2 ^ 31) (2 ^ 32) ltac:(lia)). lia.
Qed.

Lemma atoi_range (overflow : Z -> Z) (s : string) :
  INT_MIN <= atoi overflow s <= INT_MAX.
Proof.
  unfold atoi.
  destruct ((INT_MIN <=? atoi_value s) && (atoi_value s <=? INT_MAX)) eqn:E.
  - apply andb_true_iff in E as [E1 E2]. apply Z.leb_le in E1, E2. lia.
  - apply to_int_range.
Qed.

(** ** The proxy resolver (C3, C10) *)

Lemma proxy_resolver_colon (overflow : Z -> Z) (h r : string) :
  ~ occurs ":" h ->
  proxy_resolver overflow (Some ("http://" ++ h ++ ":" ++ r))
  = {| useProxy := atoi overflow r >? 0;
       proxyHost := h;
       proxyPort := atoi overflow r |}.
Proof.
  intros Hh. unfold proxy_resolver.
  rewrite strncmp_scheme_r, prefix_append.
  change 7%nat with (String.length "http://"). rewrite str_drop_append.
  change (":" ++ r) with (String ":" r).
  rewrite (strchr_append h r ":" Hh), str_take_append.
  replace (str_drop (S (String.length h)) (h ++ String ":" r)) with r;
    [reflexivity|].
  change (h ++ String ":" r) with (h ++ ":" ++ r).
  rewrite <- append_assoc.
  replace (S (String.length h)) with (String.length (h ++ ":"))
    by (rewrite length_append; cbn; lia).
  now rewrite str_drop_append.
Qed.



(** *** The port, read as an integer *)

Lemma skip_space_append (ws body : string) :
  all_space ws = true -> no_leading_space body = true ->
  skip_space (ws ++ body) = body.
Proof.
  intros Hw Hb. induction ws as [|c ws IH].
  - destruct body as [|c b]; [reflexivity|]. cbn in *.
    now destruct (isspace c).
  - cbn [all_space] in Hw. apply andb_true_iff in Hw as [Hc Hw].
    cbn [append skip_space]. rewrite Hc. exact (IH Hw).
Qed.

Lemma leading_number_digits_acc (t : string) (v : Z) :
  leading_number t v -> digits_acc t 0 = v.
Proof.
  intros (ds & rest & -> & Hd & Hr & ->).
  rewrite digits_acc_append by assumption. lia.
Qed.

(** [atoi] reads the number that the text denotes. *)
Lemma port_number_atoi_value (r : string) (n : Z) :
  port_number r n -> atoi_value r = n.
Proof.
  intros (ws & body & -> & Hw & Hb & Hcase).
  rewrite atoi_value_cases, skip_space_append by assumption.
  destruct Hcase as [(t & v & -> & Hl & ->) | [(t & -> & Hl) | (Hs & Hl)]].
  - cbn. now rewrite (leading_number_digits_acc t v Hl).
  - cbn. exact (leading_number_digits_acc t n Hl).
  - destruct body as [|c b].
    + destruct Hl as (ds & rest & E & _ & _ & ->).
      destruct ds; [reflexivity | discriminate].
    + cbn [no_leading_sign] in Hs. apply andb_true_iff in Hs as [H1 H2].
      apply negb_true_iff in H1, H2. rewrite H1, H2.
      exact (leading_number_digits_acc _ n Hl).
Qed.




Lemma port_number_unique (r : string) (n m : Z) :
  port_number r n -> port_number r m -> n = m.
Proof.
  intros Hn Hm.
  rewrite <- (port_number_atoi_value r n Hn). exact (port_number_atoi_value r m Hm).
Qed.




(** C10, as the code has it: for a value ["http://H:R"] where [H] has no
    [':'] and [R] begins with the digits [ds], all of them, denoting a
    positive number that an [int] holds (at most 2147483647), proxying is
    enabled with the host [H] and that number as the port, whatever follows
    the digits. *)
Theorem C10_port_leading_digits (overflow : Z -> Z) (H ds rest : string) :
  ~ occurs ":" H ->
  all_digits ds = true ->
  no_leading_digit rest = true ->
  0 < decimal_value ds <= INT_MAX ->
  proxy_resolver overflow (Some ("http://" ++ H ++ ":" ++ ds ++ rest))
  = {| useProxy := true; proxyHost := H; proxyPort := decimal_value ds |}.
Proof.
  intros HH Hd Hr Hv.
  rewrite proxy_resolver_colon by exact HH.
  rewrite atoi_leading_digits by assumption.
  replace (decimal_value ds >? 0) with true; [reflexivity|].
  symmetry. apply Z.gtb_lt. lia.
Qed.

Lemma C10_port_leading_digits_witness :
  proxy_resolver glibc_overflow (Some "http://h:8080/extra")
  = {| useProxy := true; proxyHost := "h"; proxyPort := 8080 |}.
Proof.
  apply (C10_port_leading_digits glibc_overflow "h" "8080" "/extra").
  - cbn. intuition discriminate.
  - reflexivity.
  - reflexivity.
  - split; [reflexivity | apply Z.leb_le; reflexivity].
Defined.

(** C10 fails as stated. The digits of ["http://h:2147483648"] denote a
    positive number that no [int] holds: whatever [atoi] returns, the port
    is not that number, and with glibc it is -2147483648 and proxying is
    disabled. And in ["http://a:b:80"], of the form ["http://H:R"] with
    [H = "a:b"] and [R = "80"], the port is read after the first [':']:
    proxying is disabled. *)
Lemma C10_counterexample :
  (all_digits "2147483648" = true /\ decimal_value "2147483648" = 2147483648)
  /\ (forall overflow,
        proxyPort (proxy_resolver overflow (Some "http://h:2147483648"))
        < 2147483648)
  /\ proxy_resolver glibc_overflow (Some "http://h:2147483648")
     = {| useProxy := false; proxyHost := "h"; proxyPort := -2147483648 |}
  /\ (forall overflow,
        proxy_resolver overflow (Some "http://a:b:80")
        = {| useProxy := false; proxyHost := "a"; proxyPort := 0 |}).
Proof.
  split; [split; reflexivity|].
  split; [|split; [reflexivity | intros overflow; reflexivity]].
  intros overflow.
  pose proof (atoi_range overflow "2147483648") as H.
  change (proxyPort (proxy_resolver overflow (Some "http://h:2147483648")))
    with (atoi overflow "2147483648").
  unfold INT_MAX in H. lia.
Qed.

(** * Further properties of the program *)

(** ** Reading the URL *)

Lemma skip_space_blank (s : string) :
  skip_space s = "" <-> (forall c, occurs c s -> isspace c = true).
Proof.
  induction s as [|x s IH]; cbn.
  - split; [intros _ c [] | reflexivity].
  - destruct (isspace x) eqn:E.
    + rewrite IH. split.
      * intros H c [<- | Hc]; auto.
      * intros H c Hc. apply H. now right.
    + split; [discriminate|]. intros H. rewrite (H x) in E by now left.
      discriminate.
Qed.

Lemma scanf_s_none (width : nat) (input : string) :
  scanf_s width input = None <-> skip_space input = "".
Proof.
  unfold scanf_s. destruct (skip_space input); split; congruence.
Qed.

(** X1: when standard input is empty or holds white space only, the run
    ends in [perr_exit("Failed to read URL", -1)] and does nothing but
    print: no lookup, no socket call. When it holds any other character,
    the run goes on to look a name up. *)
Theorem blank_input_is_fatal (w : World) :
  ((forall c, occurs c (w_stdin w) -> isspace c = true) ->
   dies_with (main w) "Failed to read URL" (-1)
   /\ Forall is_stdout (trace (main w)))
  /\ (forall c, occurs c (w_stdin w) -> isspace c = false ->
      exists name, hd_error (lookups_of (trace (main w))) = Some name).
Proof.
  split.
  - intros H. apply skip_space_blank in H. apply (scanf_s_none 1023) in H.
    split; [exact (proj1 (main_no_url w H))|].
    unfold main. rewrite H. cbn. repeat constructor.
  - intros c Hc Hs.
    destruct (scanf_s 1023 (w_stdin w)) as [url|] eqn:E.
    + destruct (parse_url url) as [host path] eqn:Hp.
      destruct (run_lookups w url host path E Hp) as [H _]. eauto.
    + apply scanf_s_none in E.
      rewrite (proj1 (skip_space_blank _) E c Hc) in Hs. discriminate.
Qed.

Lemma occurs_take_token (width : nat) (s : string) (c : ascii) :
  occurs c (take_token width s) -> isspace c = false.
Proof.
  revert s; induction width as [|n IH]; intros [|x s]; cbn; try tauto.
  destruct (isspace x) eqn:E; cbn; [tauto|].
  intros [<- | H]; [exact E | exact (IH s H)].
Qed.

Lemma occurs_until_nul (s : string) (c : ascii) :
  occurs c (until_nul s) -> occurs c s /\ c <> NUL.
Proof.
  induction s as [|x s IH]; cbn; [tauto|].
  destruct (Ascii.eqb_spec x NUL) as [E|E]; cbn; [tauto|].
  intros [<- | H]; [tauto|]. destruct (IH H). tauto.
Qed.

Lemma occurs_str_take (n : nat) (s : string) (c : ascii) :
  occurs c (str_take n s) -> occurs c s.
Proof.
  revert n; induction s as [|x s IH]; intros [|n]; cbn; try tauto.
  intros [H | H]; [tauto | right; exact (IH n H)].
Qed.

Lemma occurs_str_drop (n : nat) (s : string) (c : ascii) :
  occurs c (str_drop n s) -> occurs c s.
Proof.
  revert n; induction s as [|x s IH]; intros [|n]; cbn; try tauto.
  intros H. right. exact (IH n H).
Qed.

Lemma parse_url_occurs (url host path : string) (c : ascii) :
  parse_url url = (host, path) ->
  occurs c host \/ occurs c path -> occurs c url.
Proof.
  unfold parse_url.
  set (h := if strncmp "http://" url 7 =? 0 then str_drop 7 url else url).
  assert (Hh : occurs c h -> occurs c url).
  { subst h. destruct (_ =? 0); [apply occurs_str_drop | tauto]. }
  destruct (strchr h "/") as [i|]; intros E; injection E as <- <-;
    intros [H | H]; apply Hh.
  - exact (occurs_str_take i h c H).
  - exact (occurs_str_drop (S i) h c H).
  - exact H.
  - exact (occurs_str_drop (strlen h) h c H).
Qed.

Lemma scanf_s_occurs (width : nat) (input url : string) (c : ascii) :
  scanf_s width input = Some url -> occurs c url ->
  isspace c = false /\ c <> NUL.
Proof.
  unfold scanf_s. destruct (skip_space input) as [|x r]; [discriminate|].
  intros E Hu. assert (E' : until_nul (take_token width (String x r)) = url)
    by congruence.
  rewrite <- E' in Hu. apply occurs_until_nul in Hu as [Hu Hn].
  split; [exact (occurs_take_token _ _ _ Hu) | exact Hn].
Qed.

(** X2: the URL that [scanf] stores has at most 1023 characters, as [url]
    has room for, and neither it nor the host and the path cut out of it
    hold white space or a NUL: no CR or LF of the input reaches the
    request. *)
Theorem url_is_one_token (input url host path : string) :
  scanf_s 1023 input = Some url ->
  parse_url url = (host, path) ->
  (String.length url <= 1023)%nat
  /\ (String.length host + String.length path <= String.length url)%nat
  /\ (forall c,
        occurs c url \/ occurs c host \/ occurs c path ->
        isspace c = false /\ c <> NUL)
  /\ ~ occurs CR host /\ ~ occurs LF host
  /\ ~ occurs CR path /\ ~ occurs LF path.
Proof.
  intros Hs Hp.
  assert (Hc : forall c,
             occurs c url \/ occurs c host \/ occurs c path ->
             isspace c = false /\ c <> NUL).
  { intros c H.
    assert (Hu : occurs c url).
    { destruct H as [H | H]; [exact H | exact (parse_url_occurs _ _ _ c Hp H)]. }
    exact (scanf_s_occurs _ _ _ c Hs Hu). }
  split; [exact (scanf_s_length _ _ _ Hs)|].
  split; [exact (parse_url_length _ _ _ Hp)|].
  split; [exact Hc|].
  repeat split; intros H;
    match goal with
    | H : occurs ?c _ |- _ =>
        assert (E : isspace c = false) by (apply Hc; tauto); discriminate E
    end.
Qed.

Lemma url_is_one_token_witness :
  (String.length "http://example.com/index.html" <= 1023)%nat
  /\ ~ occurs CR "example.com" /\ ~ occurs LF "index.html".
Proof.
  pose proof (url_is_one_token
                ("  http://example.com/index.html" ++ nl ++ "ignored")
                "http://example.com/index.html" "example.com" "index.html"
                eq_refl eq_refl) as H.
  split; [exact (proj1 H)|].
  split; [exact (proj1 (proj2 (proj2 (proj2 H))))
         | exact (proj2 (proj2 (proj2 (proj2 (proj2 (proj2 H))))))].
Defined.

(** ** The parser, read backwards *)

(** X3: the host the parser returns never holds a ['/'], and host and path
    give the remainder of the URL back: it is the host alone when it has no
    ['/'], and host, ['/'] and path otherwise. *)
Theorem parse_url_round_trip (url : string) :
  exists rest,
    remainder_of url rest
    /\ ~ occurs "/" (fst (parse_url url))
    /\ ((~ occurs "/" rest /\ parse_url url = (rest, ""))
        \/ rest = fst (parse_url url) ++ "/" ++ snd (parse_url url)).
Proof.
  destruct (remainder_exists url) as (rest & Hr). exists rest.
  split; [exact Hr|].
  rewrite (parse_url_remainder _ _ Hr).
  destruct (strchr rest "/") as [i|] eqn:E.
  - apply strchr_some in E. destruct E as (E & Hn & _). cbn [fst snd].
    split; [exact Hn | right; exact E].
  - apply strchr_none in E. cbn [fst]. split; [exact E | left; split; auto].
Qed.

Lemma blank_input_is_fatal_witness :
  dies_with (main example_blank_input_world) "Failed to read URL" (-1)
  /\ Forall is_stdout (trace (main example_blank_input_world)).
Proof.
  apply (proj1 (blank_input_is_fatal example_blank_input_world)).
  intros c H. cbn in H.
  destruct H as [<- | [<- | [<- | []]]]; reflexivity.
Defined.

(** ** The proxy port on its way to [connect] *)

(** X4: the port of an enabled proxy is any positive [int]; it is not
    compared with 65535, and [connect] is given it modulo 65536: for a
    value ["http://H:R"], [H] without [':'], whose [R] begins with digits
    denoting [n], [0 < n <= INT_MAX], the only [connect] of the run is to
    the address found for [H] and to the port [n mod 65536]. *)
Theorem proxy_port_wraps (w : World) (url H ds rest : string) (a : in_addr) :
  scanf_s 1023 (w_stdin w) = Some url ->
  w_http_proxy w = Some ("http://" ++ H ++ ":" ++ ds ++ rest) ->
  ~ occurs ":" H ->
  all_digits ds = true ->
  no_leading_digit rest = true ->
  0 < decimal_value ds <= INT_MAX ->
  address_of w H = Some a ->
  0 <= w_socket w ->
  connects_of (trace (main w)) = [(a, decimal_value ds mod 65536)]
  /\ 0 <= decimal_value ds mod 65536 < 65536.
Proof.
  intros Hs He HH Hd Hr Hv Ha Hk.
  destruct (parse_url url) as [host path] eqn:Hp.
  pose proof (run_connects w url host path Hs Hp) as Hc. cbv zeta in Hc.
  rewrite He, proxy_resolver_colon in Hc by exact HH.
  rewrite atoi_leading_digits in Hc by assumption.
  unfold connect_target in Hc. cbn [useProxy proxyHost proxyPort] in Hc.
  replace (decimal_value ds >? 0) with true in Hc
    by (symmetry; apply Z.gtb_lt; lia).
  cbn [fst snd] in Hc. rewrite Ha in Hc.
  replace (w_socket w <? 0) with false in Hc
    by (symmetry; apply Z.ltb_ge; exact Hk).
  split; [exact Hc|]. apply Z.mod_pos_bound. lia.
Qed.

Lemma proxy_port_wraps_witness :
  connects_of (trace (main example_port_wrap_world)) = [(3221225985, 80)].
Proof.
  refine (proj1 (proxy_port_wraps example_port_wrap_world
                   "http://example.com/index.html" "proxy.example" "65616" ""
                   3221225985 eq_refl eq_refl _ eq_refl eq_refl _ eq_refl _)).
  - cbn. intuition discriminate.
  - split; [reflexivity | apply Z.leb_le; reflexivity].
  - apply Z.leb_le. reflexivity.
Defined.

(** ** What the receive loop prints, and what it does not *)

Lemma stdout_of_chunk_reads (s : Z) (chunks : list string) :
  stdout_of (chunk_reads s chunks) = fold_right append "" chunks.
Proof.
  induction chunks as [|c chunks IH]; [reflexivity|].
  cbn. now rewrite <- IH.
Qed.

(** X5: whatever bytes the chunks hold, each chunk that [recv] returns is
    printed up to its first NUL byte, and nothing of it after that byte:
    up to the end of the stream, standard output receives the chunks, each
    cut at its first NUL, one after the other. *)
Theorem chunks_are_printed_until_nul (s : Z) (chunks : list string)
    (script : list recv_event) (b : buffer) :
  buf_size b = Z.to_nat bufsz ->
  Forall (fun c => (0 < String.length c)%nat
                   /\ Z.of_nat (String.length c) <= bufsz - 2) chunks ->
  stdout_of (trace (recv_loop s (map RecvData chunks ++ RecvData "" :: script) b))
  = fold_right append "" (map until_nul chunks)
  /\ result (recv_loop s (map RecvData chunks ++ RecvData "" :: script) b)
     = Returned 0.
Proof.
  intros Hsz Hc.
  destruct (recv_loop_chunks s chunks (RecvData "" :: script) b Hsz Hc)
    as (b' & _ & ->).
  rewrite recv_loop_eof. cbn [bind trace result].
  rewrite stdout_of_app, stdout_of_chunk_reads. cbn [stdout_of].
  now rewrite append_nil_r.
Qed.

Lemma chunks_are_printed_until_nul_witness :
  stdout_of
    (trace (recv_loop 3
              [RecvData example_response;
               RecvData (String "a" (String NUL (String "b" "")));
               RecvData ""]
              {| buf_size := Z.to_nat bufsz; buf_at := fun _ => "x"%char |}))
  = example_response ++ "a".
Proof.
  refine (proj1 (chunks_are_printed_until_nul 3
                   [example_response; String "a" (String NUL (String "b" ""))]
                   []
                   {| buf_size := Z.to_nat bufsz; buf_at := fun _ => "x"%char |}
                   eq_refl _)).
  repeat constructor; apply Z.leb_le; reflexivity.
Defined.

(** The loop does not depend on what [recv_buf] holds when it starts a
    turn. *)
Lemma recv_loop_buffer_irrelevant (s : Z) (script : list recv_event)
    (b1 b2 : buffer) :
  buf_size b1 = Z.to_nat bufsz -> buf_size b2 = Z.to_nat bufsz ->
  Forall (recv_contract (bufsz - 2)) script ->
  recv_loop s script b1 = recv_loop s script b2.
Proof.
  intros H1 H2 H. revert b1 b2 H1 H2.
  induction H as [|ev script Hev _ IH]; intros b1 b2 H1 H2; [reflexivity|].
  destruct ev as [bytes|e]; [|reflexivity].
  destruct (Nat.eq_dec (String.length bytes) 0) as [E|E].
  - destruct bytes; [reflexivity | discriminate].
  - destruct (recv_loop_chunk s bytes script b1 H1) as (b1' & H1' & ->);
      [lia | exact Hev |].
    destruct (recv_loop_chunk s bytes script b2 H2) as (b2' & H2' & ->);
      [lia | exact Hev |].
    now rewrite (IH b1' b2' H1' H2').
Qed.

(** X6: what the uninitialised [recv_buf] holds when [main] starts, and
    what an earlier chunk left in it, never shows: with [recv] returning no
    more than it is asked for, the run is the same for any contents of the
    array. *)
Theorem uninitialised_buffer_never_shows (w : World) (g : nat -> ascii) :
  Forall (recv_contract (bufsz - 2)) (w_recv w) ->
  main (with_recv_buf g w) = main w.
Proof.
  intros H. unfold main.
  cbn [with_recv_buf w_stdin w_http_proxy w_atoi_overflow w_inet_addr
       w_gethostbyname w_socket w_connect w_send w_recv w_recv_buf w_errno
       WSAGetLastError].
  rewrite (recv_loop_buffer_irrelevant (w_socket w) (w_recv w)
             {| buf_size := Z.to_nat bufsz; buf_at := g |}
             {| buf_size := Z.to_nat bufsz; buf_at := w_recv_buf w |}
             eq_refl eq_refl H).
  reflexivity.
Qed.

Lemma uninitialised_buffer_never_shows_witness :
  main (with_recv_buf (fun _ => "S"%char) example_direct_world)
  = main example_direct_world.
Proof.
  apply (uninitialised_buffer_never_shows example_direct_world).
  repeat constructor; apply Z.leb_le; reflexivity.
Defined.

(** ** The order of the calls and the life of the socket *)

(** X7: in every run the network calls come in the order of the program:
    [inet_addr], then [gethostbyname] if at all, [socket], [connect],
    [send], the calls of [recv], [closesocket], each of them at most once
    but [recv]; [connect], [send], [recv] and [closesocket] are given the
    descriptor that [socket] returned, and never a negative one. *)
Theorem calls_follow_the_protocol (w : World) :
  exists p, protocol_run (w_socket w) PStart (trace (main w)) = Some p.
Proof.
  destruct (scanf_s 1023 (w_stdin w)) as [url|] eqn:Hs.
  - destruct (parse_url url) as [host path] eqn:Hp.
    exact (run_protocol w url host path Hs Hp).
  - exists PStart. unfold main. rewrite Hs. reflexivity.
Qed.

(** X8: the socket is closed exactly in the runs that return from [main]:
    once, with the descriptor that [socket] returned. No run that ends in
    [perr_exit] closes it, whether the socket was created or not. *)
Theorem socket_closed_only_on_return (w : World) :
  closes_of (trace (main w))
  = match result (main w) with
    | Returned _ => [w_socket w]
    | _ => []
    end.
Proof.
  destruct (scanf_s 1023 (w_stdin w)) as [url|] eqn:Hs.
  - destruct (parse_url url) as [host path] eqn:Hp.
    exact (run_closes w url host path Hs Hp).
  - unfold main. rewrite Hs. reflexivity.
Qed.

(** The loop ends with a value of [recv] that is not positive, and never
    in [exit]. *)
Lemma recv_loop_result (s : Z) (script : list recv_event) (b : buffer) :
  match result (recv_loop s script b) with
  | Returned rc => rc <= 0
  | Exited _ => False
  | _ => True
  end.
Proof.
  revert b; induction script as [|ev script IH]; intros b; [exact I|].
  cbn [recv_loop]. rewrite result_bind. cbn [emit result].
  destruct ev as [bytes|e]; [|cbn; lia].
  destruct (Z.of_nat (strlen bytes) >? 0) eqn:E;
    [|cbn; rewrite Z.gtb_ltb in E; apply Z.ltb_ge in E; exact E].
  rewrite result_bind.
  destruct (buf_copy b 0 bytes) as [b1|]; [|exact I].
  cbn [lift_mem ret result]. rewrite result_bind.
  destruct (buf_store b1 (Z.of_nat (strlen bytes)) NUL) as [b2|]; [|exact I].
  cbn [lift_mem ret result]. rewrite result_bind.
  destruct (buf_cstr b2) as [text|]; [|exact I].
  cbn [lift_mem ret result]. rewrite result_bind. cbn [printf emit result].
  apply IH.
Qed.

(** X9: [main] returns only 0, and it does so exactly when the URL was
    read, the connection established, the whole request accepted and the
    loop ended by a read of zero bytes; when no URL was read the run ends
    in [exit(-1)], and when one was read the status of an [exit] is the
    code of [WSAGetLastError]. *)
Theorem exit_status_of_main (w : World) :
  let px := proxy_resolver (w_atoi_overflow w) (w_http_proxy w) in
  let loop := recv_loop (w_socket w) (w_recv w)
                {| buf_size := Z.to_nat bufsz; buf_at := w_recv_buf w |} in
  (forall v, result (main w) = Returned v -> v = 0)
  /\ (result (main w) = Returned 0 <->
      exists url,
        scanf_s 1023 (w_stdin w) = Some url
        /\ connected w (fst (connect_target px (fst (parse_url url)))) = true
        /\ Z.of_nat (strlen (build_request (useProxy px) (fst (parse_url url))
                               (snd (parse_url url)))) <= w_send w
        /\ result loop = Returned 0)
  /\ (scanf_s 1023 (w_stdin w) = None -> result (main w) = Exited (-1))
  /\ (forall url c,
        scanf_s 1023 (w_stdin w) = Some url -> result (main w) = Exited c ->
        c = w_errno w).
Proof.
  intros px loop.
  destruct (scanf_s 1023 (w_stdin w)) as [url|] eqn:Hs.
  - destruct (parse_url url) as [host path] eqn:Hp.
    pose proof (run_result w url host path Hs Hp) as Hr. cbv zeta in Hr.
    fold px in Hr. fold loop in Hr.
    pose proof (recv_loop_result (w_socket w) (w_recv w)
                  {| buf_size := Z.to_nat bufsz; buf_at := w_recv_buf w |})
      as Hl. fold loop in Hl.
    rewrite Hr. cbn [fst snd].
    destruct (connected w (fst (connect_target px host))) eqn:Hc;
      cbn [andb];
      [destruct (w_send w <? Z.of_nat (strlen (build_request (useProxy px) host path)))
         eqn:Hd; cbn [negb] |].
    + split; [discriminate|]. split; [|split; [discriminate | intros u c _ [= <-]; reflexivity]].
      split; [discriminate|]. intros (u & [= <-] & _ & Hge & _).
      rewrite Hp in Hge. cbn [fst snd] in Hge.
      apply Z.ltb_lt in Hd. lia.
    + apply Z.ltb_ge in Hd.
      destruct (result loop) as [rc| | |] eqn:El; try contradiction.
      * destruct (rc <? 0) eqn:En.
        -- split; [discriminate|]. split; [|split; [discriminate | intros u c _ [= <-]; reflexivity]].
           split; [discriminate|]. intros (u & _ & _ & _ & [= ->]).
           discriminate En.
        -- apply Z.ltb_ge in En. assert (rc = 0) by lia. subst rc.
           split; [intros v [= <-]; reflexivity|].
           split; [|split; [discriminate | intros u c _ [=]]].
           split; [|reflexivity]. intros _. exists url.
           rewrite Hp. cbn [fst snd]. auto.
      * split; [discriminate|].
        split; [|split; [discriminate | intros u c _ [=]]].
        split; [discriminate|]. intros (u & _ & _ & _ & [=]).
      * split; [discriminate|].
        split; [|split; [discriminate | intros u c _ [=]]].
        split; [discriminate|]. intros (u & _ & _ & _ & [=]).
    + split; [discriminate|]. split; [|split; [discriminate | intros u c _ [= <-]; reflexivity]].
      split; [discriminate|]. intros (u & [= <-] & Hc' & _).
      rewrite Hp in Hc'. cbn [fst] in Hc'. congruence.
  - destruct (main_no_url w Hs) as ((Hr & _) & _). rewrite Hr.
    split; [discriminate|].
    split; [|split; [intros _; reflexivity | intros u c [=]]].
    split; [discriminate|]. intros (u & [=] & _).
Qed.

(** ** The examples of the specification *)

Example parse_url_example :
  parse_url "http://example.com/a/b.html" = ("example.com", "a/b.html")
  /\ parse_url "example.com" = ("example.com", "").
Proof. split; reflexivity. Qed.

Example proxy_resolver_example :
  proxy_resolver glibc_overflow (Some "http://proxy.example:8080")
  = {| useProxy := true; proxyHost := "proxy.example"; proxyPort := 8080 |}
  /\ useProxy (proxy_resolver glibc_overflow (Some "proxy.example:8080")) = false
  /\ useProxy (proxy_resolver glibc_overflow (Some "http://proxy.example")) = false.
Proof. repeat split; reflexivity. Qed.

Example main_example :
  stdout_of (trace (recv_loop 3 (w_recv example_direct_world)
                      {| buf_size := Z.to_nat bufsz;
                         buf_at := w_recv_buf example_direct_world |}))
  = example_response
  /\ result (main example_direct_world) = Returned 0.
Proof. split; vm_compute; reflexivity. Qed.
